(** * Asks (listings) endpoint, version 3: a shallow embedding

    Source: [src/api/endpoints/orders/get-orders-asks/v3.ts].

    The endpoint validates a query (the Joi schema of [validate.query]),
    assembles one SQL statement from a list of [conditions], an [ORDER BY]
    and a [LIMIT], runs it, builds a continuation token from the last row
    of a full page and projects every row into the response shape.

    Conventions of the embedding:
    - a query field that may be absent is an [option];
    - the schema is checked key by key in the order in which it is
      written, then [.or], then [.with], and the first failure is the
      answer; the string patterns, which come from [regex] and are not
      part of this source file, are parameters ([patterns]);
    - [.lowercase()] converts: the handler receives the lower-cased
      token, maker and contracts;
    - the store is a list of orders; [WHERE], [ORDER BY] and [LIMIT] are
      given their usual meaning on that list, and a statement the
      database refuses (an empty [IN] list, a cursor it cannot read) is
      a failure of the query;
    - the columns hold exact decimals (an integer and a scale); how the
      database reads the text of a cursor, as a numeric for the price
      and through [to_timestamp] for the creation time, is a parameter
      ([reading]), with an instance that rounds through double
      precision as PostgreSQL does;
    - errors are values of [error]; the labels follow the error taxonomy of
      the specification. *)

From Stdlib Require Import String Ascii List ZArith NArith Bool Lia QArith.
From Stdlib Require Import DecimalString Sorted Permutation.
From Stdlib Require OrderedTypeEx DecimalN.
Import ListNotations.

Local Open Scope string_scope.
Local Open Scope Z_scope.

(** ** Regular expressions

    The handler validates decoded continuation tokens with a JavaScript
    regular expression.  The fragment needed (character classes,
    sequence, alternative, iteration, anchored at both ends) is embedded
    with a derivative based matcher. *)
Module Regex.

Inductive re : Type :=
| Void : re
| Eps : re
| Class : (ascii -> bool) -> re
| Seq : re -> re -> re
| Alt : re -> re -> re
| Star : re -> re.

Definition plus (r : re) : re := Seq r (Star r).
Definition opt (r : re) : re := Alt r Eps.

Fixpoint rep (n : nat) (r : re) : re :=
  match n with
  | O => Eps
  | S n' => Seq r (rep n' r)
  end.

Fixpoint lit (s : string) : re :=
  match s with
  | EmptyString => Eps
  | String c s' => Seq (Class (Ascii.eqb c)) (lit s')
  end.

Fixpoint nullable (r : re) : bool :=
  match r with
  | Void => false
  | Eps => true
  | Class _ => false
  | Seq a b => nullable a && nullable b
  | Alt a b => nullable a || nullable b
  | Star _ => true
  end.

Fixpoint deriv (c : ascii) (r : re) : re :=
  match r with
  | Void => Void
  | Eps => Void
  | Class p => if p c then Eps else Void
  | Seq a b =>
      if nullable a then Alt (Seq (deriv c a) b) (deriv c b)
      else Seq (deriv c a) b
  | Alt a b => Alt (deriv c a) (deriv c b)
  | Star a => Seq (deriv c a) (Star a)
  end.

(** [test r s]: the whole of [s] matches [r] (the pattern [^r$]). *)
Fixpoint test (r : re) (s : string) : bool :=
  match s with
  | EmptyString => nullable r
  | String c s' => test (deriv c r) s'
  end.

(** The language of a regular expression. *)
Inductive Lang : re -> string -> Prop :=
| L_eps : Lang Eps ""
| L_class : forall (p : ascii -> bool) c, p c = true -> Lang (Class p) (String c "")
| L_seq : forall a b s1 s2, Lang a s1 -> Lang b s2 -> Lang (Seq a b) (s1 ++ s2)
| L_alt_l : forall a b s, Lang a s -> Lang (Alt a b) s
| L_alt_r : forall a b s, Lang b s -> Lang (Alt a b) s
| L_star_nil : forall a, Lang (Star a) ""
| L_star_app : forall a s1 s2,
    Lang a s1 -> Lang (Star a) s2 -> Lang (Star a) (s1 ++ s2).

Create HintDb regex.
#[export] Hint Constructors Lang : regex.

Lemma append_eq_nil (s1 s2 : string) : s1 ++ s2 = "" -> s1 = "" /\ s2 = "".
Proof.
  destruct s1; simpl; intros H; [auto | discriminate].
Qed.

Lemma nullable_complete r : Lang r "" -> nullable r = true.
Proof.
  intros H. remember "" as s eqn:Es.
  induction H; simpl; try reflexivity; try discriminate.
  - apply append_eq_nil in Es. destruct Es as [E1 E2].
    rewrite (IHLang1 E1), (IHLang2 E2). reflexivity.
  - rewrite (IHLang Es). reflexivity.
  - rewrite (IHLang Es). apply orb_true_r.
Qed.

Lemma nullable_sound r : nullable r = true -> Lang r "".
Proof.
  induction r; simpl; intros H; try discriminate; auto with regex.
  - apply andb_true_iff in H. destruct H as [H1 H2].
    change "" with ("" ++ ""). auto with regex.
  - apply orb_true_iff in H. destruct H; auto with regex.
Qed.

(** A non-empty word of [Star a] starts with a non-empty word of [a]. *)
Lemma star_cons_inv a c s :
  Lang (Star a) (String c s) ->
  exists s1 s2, s = s1 ++ s2 /\ Lang a (String c s1) /\ Lang (Star a) s2.
Proof.
  intros H. remember (Star a) as r eqn:Er. remember (String c s) as w eqn:Ew.
  revert c s Ew.
  induction H; intros c0 s0 Ew; try discriminate.
  inversion Er; subst a0. clear IHLang1.
  destruct s1 as [|c1 s1'].
  - simpl in Ew. apply (IHLang2 eq_refl _ _ Ew).
  - simpl in Ew. inversion Ew; subst. exists s1', s2. auto.
Qed.

Lemma deriv_complete c r s : Lang r (String c s) -> Lang (deriv c r) s.
Proof.
  revert s. induction r; intros s H; simpl.
  - inversion H.
  - inversion H.
  - inversion H; subst. rewrite H2. constructor.
  - inversion H; subst.
    destruct s1 as [|c1 s1'].
    + simpl in H2. subst s2.
      rewrite (nullable_complete _ H3). apply L_alt_r. auto.
    + simpl in H2. inversion H2; subst.
      destruct (nullable r1); [apply L_alt_l|]; constructor; auto.
  - inversion H; subst; [apply L_alt_l | apply L_alt_r]; auto.
  - apply star_cons_inv in H. destruct H as (s1 & s2 & -> & H1 & H2).
    constructor; auto.
Qed.

Lemma deriv_sound c r s : Lang (deriv c r) s -> Lang r (String c s).
Proof.
  revert s. induction r; intros s H; simpl in H.
  - inversion H.
  - inversion H.
  - destruct (b c) eqn:E; inversion H; subst. constructor. exact E.
  - destruct (nullable r1) eqn:N.
    + inversion H; subst.
      * inversion H3; subst.
        change (String c (s1 ++ s2)) with (String c s1 ++ s2). auto with regex.
      * change (String c s) with ("" ++ String c s).
        constructor; [apply nullable_sound; exact N | auto].
    + inversion H; subst.
      change (String c (s1 ++ s2)) with (String c s1 ++ s2). auto with regex.
  - inversion H; subst; auto with regex.
  - inversion H; subst.
    change (String c (s1 ++ s2)) with (String c s1 ++ s2). auto with regex.
Qed.

Lemma test_complete r s : Lang r s -> test r s = true.
Proof.
  revert r. induction s as [|c s IH]; intros r H; simpl.
  - apply nullable_complete. exact H.
  - apply IH. apply deriv_complete. exact H.
Qed.

Lemma test_sound r s : test r s = true -> Lang r s.
Proof.
  revert r. induction s as [|c s IH]; intros r H; simpl in H.
  - apply nullable_sound. exact H.
  - apply deriv_sound. apply IH. exact H.
Qed.

Lemma test_iff r s : test r s = true <-> Lang r s.
Proof.
  split; [apply test_sound | apply test_complete].
Qed.

End Regex.

(** ** Character classes and digit strings *)

Definition is_digit (c : ascii) : bool :=
  let n := N_of_ascii c in ((48 <=? n) && (n <=? 57))%N.

(** [[a-f0-9]] *)
Definition is_hex (c : ascii) : bool :=
  let n := N_of_ascii c in
  (((48 <=? n) && (n <=? 57)) || ((97 <=? n) && (n <=? 102)))%N.

(** [.] : any character but a line terminator. *)
Definition is_any (c : ascii) : bool :=
  let n := N_of_ascii c in negb ((n =? 10) || (n =? 13))%N.

Fixpoint all_chars (p : ascii -> bool) (s : string) : bool :=
  match s with
  | EmptyString => true
  | String c s' => p c && all_chars p s'
  end.

Definition nonempty (s : string) : bool :=
  match s with
  | EmptyString => false
  | String _ _ => true
  end.

Lemma all_chars_app p s1 s2 :
  all_chars p (s1 ++ s2) = all_chars p s1 && all_chars p s2.
Proof.
  induction s1 as [|c s1 IH]; simpl; [reflexivity|].
  rewrite IH. apply andb_assoc.
Qed.

Lemma length_append (s1 s2 : string) :
  String.length (s1 ++ s2) = (String.length s1 + String.length s2)%nat.
Proof.
  induction s1 as [|c s1 IH]; simpl; [reflexivity | now rewrite IH].
Qed.

Lemma app_assoc_s (s1 s2 s3 : string) : (s1 ++ s2) ++ s3 = s1 ++ (s2 ++ s3).
Proof.
  induction s1 as [|c s1 IH]; simpl; [reflexivity | now rewrite IH].
Qed.

Lemma is_digit_is_hex c : is_digit c = true -> is_hex c = true.
Proof.
  unfold is_digit, is_hex. intros ->. reflexivity.
Qed.

(** ** Exact decimals

    Prices and epoch timestamps reach the handler as decimal numbers.  A
    value is an integer [unscaled] and a number [scale] of fraction
    digits: it stands for [unscaled / 10^scale]. *)
Module Numeric.

Record numeric : Type := mk { unscaled : Z; scale : nat }.

Definition pow10 (k : nat) : Z := 10 ^ Z.of_nat k.

Definition of_Z (z : Z) : numeric := mk z 0.

Definition compare (a b : numeric) : comparison :=
  Z.compare (unscaled a * pow10 (scale b)) (unscaled b * pow10 (scale a)).

Definition to_Q (a : numeric) : Q :=
  Qmake (unscaled a) (Z.to_pos (pow10 (scale a))).

Definition digit_char (d : Z) : ascii := ascii_of_N (48 + Z.to_N d).

(** The decimal digits of a natural number, without leading zeros. *)
Definition int_text (n : Z) : string :=
  NilZero.string_of_uint (N.to_uint (Z.to_N n)).

(** Exactly [k] digits: [n] modulo [10^k], padded with zeros. *)
Fixpoint frac_text (k : nat) (n : Z) : string :=
  match k with
  | O => ""
  | S k' => frac_text k' (n / 10) ++ String (digit_char (n mod 10)) ""
  end.

(** The text of a value, as it is concatenated into a token: the sign
    if negative, the integer part, and after a point as many digits as
    the scale. *)
Definition show (a : numeric) : string :=
  let m := Z.abs (unscaled a) in
  let p := pow10 (scale a) in
  (if unscaled a <? 0 then "-" else "") ++
  int_text (m / p) ++
  match scale a with
  | O => ""
  | S _ => "." ++ frac_text (scale a) (m mod p)
  end.

(** Reading the text of a bound parameter as a number. *)
Fixpoint digits_val (acc : Z) (s : string) : Z :=
  match s with
  | EmptyString => acc
  | String c s' => digits_val (10 * acc + (Z.of_N (N_of_ascii c) - 48)) s'
  end.

Fixpoint span_digits (s : string) : string * string :=
  match s with
  | EmptyString => ("", "")
  | String c s' =>
      if is_digit c
      then let (d, r) := span_digits s' in (String c d, r)
      else ("", s)
  end.

Definition digit_string (s : string) : bool :=
  nonempty s && all_chars is_digit s.

(** Accepted forms: [ddd], [ddd.ddd] and [dddEddd]; anything else is not
    a number for the store. *)
Definition parse (s : string) : option numeric :=
  let (ip, rest) := span_digits s in
  if negb (nonempty ip) then None
  else
    match rest with
    | EmptyString => Some (mk (digits_val 0 ip) 0)
    | String c f =>
        if negb (digit_string f) then None
        else if Ascii.eqb c "." then
          Some (mk (digits_val (digits_val 0 ip) f) (String.length f))
        else if Ascii.eqb c "e" || Ascii.eqb c "E" then
          Some (mk (digits_val 0 ip * 10 ^ digits_val 0 f) 0)
        else None
    end.

Lemma digit_char_is_digit d : 0 <= d <= 9 -> is_digit (digit_char d) = true.
Proof.
  intros H. unfold digit_char, is_digit.
  assert (E : exists k, (k <= 9)%nat /\ Z.to_N d = N.of_nat k).
  { exists (Z.to_nat d). split; [lia|]. lia. }
  destruct E as (k & Hk & ->).
  do 10 (destruct k as [|k]; [reflexivity|]). lia.
Qed.

Lemma frac_text_digits k n : all_chars is_digit (frac_text k n) = true.
Proof.
  revert n. induction k as [|k IH]; intros n; simpl; [reflexivity|].
  rewrite all_chars_app, IH. simpl.
  rewrite digit_char_is_digit; [reflexivity|].
  pose proof (Z.mod_pos_bound n 10). lia.
Qed.

Lemma frac_text_length k n : String.length (frac_text k n) = k.
Proof.
  revert n. induction k as [|k IH]; intros n; simpl; [reflexivity|].
  rewrite length_append, IH. simpl. lia.
Qed.

Lemma uint_text_digits (u : Decimal.uint) :
  all_chars is_digit (NilEmpty.string_of_uint u) = true.
Proof.
  induction u; simpl; auto.
Qed.

Lemma int_text_digits n : digit_string (int_text n) = true.
Proof.
  unfold digit_string, int_text, NilZero.string_of_uint.
  destruct (N.to_uint (Z.to_N n)) eqn:E;
    try (simpl; apply (uint_text_digits u)).
  reflexivity.
Qed.

End Numeric.

(** ** Opaque token encoding

    Modelled from the spec: the helpers that encode and decode tokens are
    not among the sources at hand; the token is a reversible byte
    encoding of its text, base64. *)
Module Base64.

Definition alphabet : string :=
  "ABCDEFGHIJKLMNOPQRSTUVWXYZabcdefghijklmnopqrstuvwxyz0123456789+/".

Definition pad : ascii := "="%char.

Definition char_of (n : N) : ascii :=
  match String.get (N.to_nat n) alphabet with
  | Some c => c
  | None => pad
  end.

Fixpoint index_of (c : ascii) (s : string) : option N :=
  match s with
  | EmptyString => None
  | String d s' =>
      if Ascii.eqb c d then Some 0%N else option_map N.succ (index_of c s')
  end.

Definition value_of (c : ascii) : option N := index_of c alphabet.

Local Open Scope N_scope.

(** Three bytes give four characters; a last group of one or two bytes is
    padded. *)
Fixpoint encode_bytes (l : list N) : list ascii :=
  match l with
  | [] => []
  | [a] => [char_of (a / 4); char_of ((a mod 4) * 16); pad; pad]
  | [a; b] =>
      [char_of (a / 4); char_of ((a mod 4) * 16 + b / 16);
       char_of ((b mod 16) * 4); pad]
  | a :: b :: d :: rest =>
      char_of (a / 4) :: char_of ((a mod 4) * 16 + b / 16)
      :: char_of ((b mod 16) * 4 + d / 64) :: char_of (d mod 64)
      :: encode_bytes rest
  end.

Fixpoint decode_chars (l : list ascii) : option (list N) :=
  match l with
  | [] => Some []
  | c1 :: c2 :: c3 :: c4 :: rest =>
      match value_of c1, value_of c2 with
      | Some v1, Some v2 =>
          if Ascii.eqb c4 pad then
            match rest with
            | [] =>
                if Ascii.eqb c3 pad then Some [v1 * 4 + v2 / 16]
                else
                  match value_of c3 with
                  | Some v3 =>
                      Some [v1 * 4 + v2 / 16; (v2 mod 16) * 16 + v3 / 4]
                  | None => None
                  end
            | _ :: _ => None
            end
          else
            match value_of c3, value_of c4, decode_chars rest with
            | Some v3, Some v4, Some bs =>
                Some (v1 * 4 + v2 / 16 :: (v2 mod 16) * 16 + v3 / 4
                      :: (v3 mod 4) * 64 + v4 :: bs)
            | _, _, _ => None
            end
      | _, _ => None
      end
  | _ => None
  end.

Definition bytes_of (s : string) : list N :=
  map N_of_ascii (list_ascii_of_string s).

Definition string_of (l : list N) : string :=
  string_of_list_ascii (map ascii_of_N l).

Definition encode (s : string) : string :=
  string_of_list_ascii (encode_bytes (bytes_of s)).

Definition decode (s : string) : option string :=
  option_map string_of (decode_chars (list_ascii_of_string s)).

Lemma sextets_ok :
  forallb (fun k =>
             match value_of (char_of (N.of_nat k)) with
             | Some v => (v =? N.of_nat k) && negb (Ascii.eqb (char_of (N.of_nat k)) pad)
             | None => false
             end) (seq 0 64) = true.
Proof.
  vm_compute. reflexivity.
Qed.

Lemma sextet_spec n :
  n < 64 -> value_of (char_of n) = Some n /\ Ascii.eqb (char_of n) pad = false.
Proof.
  intros H.
  pose proof (proj1 (forallb_forall _ _) sextets_ok (N.to_nat n)) as F.
  assert (I : In (N.to_nat n) (seq 0 64)) by (apply in_seq; lia).
  specialize (F I). cbv beta in F.
  rewrite N2Nat.id in F.
  destruct (value_of (char_of n)) as [v|]; [|discriminate].
  apply andb_true_iff in F. destruct F as [F1 F2].
  apply N.eqb_eq in F1. subst v.
  apply negb_true_iff in F2. auto.
Qed.

Lemma list_ind3 (A : Type) (P : list A -> Prop) :
  P [] -> (forall a, P [a]) -> (forall a b, P [a; b]) ->
  (forall a b c l, P l -> P (a :: b :: c :: l)) ->
  forall l, P l.
Proof.
  intros H0 H1 H2 H3.
  fix IH 1. intros l.
  destruct l as [|a [|b [|c l]]];
    [exact H0 | apply H1 | apply H2 | apply H3; apply IH].
Qed.

Ltac euclid := zify; Z.to_euclidean_division_equations; lia.

Lemma decode_encode_bytes l :
  Forall (fun b => b < 256) l -> decode_chars (encode_bytes l) = Some l.
Proof.
  induction l as [|a|a b|a b d l IH] using list_ind3; intros F.
  - reflexivity.
  - inversion F as [|? ? Ha _]; subst.
    cbn [encode_bytes decode_chars].
    destruct (sextet_spec (a / 4)) as [-> _]; [euclid|].
    destruct (sextet_spec (a mod 4 * 16)) as [-> _]; [euclid|].
    rewrite Ascii.eqb_refl.
    do 2 f_equal. euclid.
  - inversion F as [|? ? Ha F']; subst. inversion F' as [|? ? Hb _]; subst.
    cbn [encode_bytes decode_chars].
    destruct (sextet_spec (a / 4)) as [-> _]; [euclid|].
    destruct (sextet_spec (a mod 4 * 16 + b / 16)) as [-> _]; [euclid|].
    destruct (sextet_spec (b mod 16 * 4)) as [-> ->]; [euclid|].
    rewrite Ascii.eqb_refl.
    f_equal. f_equal; [euclid|]. f_equal. euclid.
  - inversion F as [|? ? Ha F1]; subst. inversion F1 as [|? ? Hb F2]; subst.
    inversion F2 as [|? ? Hd F3]; subst.
    cbn [encode_bytes decode_chars].
    destruct (sextet_spec (a / 4)) as [-> _]; [euclid|].
    destruct (sextet_spec (a mod 4 * 16 + b / 16)) as [-> _]; [euclid|].
    destruct (sextet_spec (b mod 16 * 4 + d / 64)) as [-> _]; [euclid|].
    destruct (sextet_spec (d mod 64)) as [-> ->]; [euclid|].
    rewrite (IH F3).
    f_equal. f_equal; [euclid|]. f_equal; [euclid|]. f_equal. euclid.
Qed.

Lemma bytes_of_bound s : Forall (fun b => b < 256) (bytes_of s).
Proof.
  unfold bytes_of. induction s as [|c s IH]; simpl; constructor; auto.
  apply N_ascii_bounded.
Qed.

Lemma string_of_bytes_of s : string_of (bytes_of s) = s.
Proof.
  unfold string_of, bytes_of. induction s as [|c s IH]; simpl; [reflexivity|].
  rewrite ascii_N_embedding. f_equal. exact IH.
Qed.

(** The encoding is reversible. *)
Lemma decode_encode s : decode (encode s) = Some s.
Proof.
  unfold decode, encode.
  rewrite list_ascii_of_string_of_list_ascii.
  rewrite decode_encode_bytes by apply bytes_of_bound.
  simpl. f_equal. apply string_of_bytes_of.
Qed.

End Base64.

(** ** Data model *)

(** Error kinds, after the error taxonomy of the specification;
    [InvalidParameter] stands for a key of the query that fails its own
    rule. *)
Inductive error : Type :=
| InvalidFilterCombination
| InvalidSortForFilter
| InvalidContinuation
| UpstreamQueryFailure
| ProjectionFailure
| InvalidParameter.

Inductive result (A : Type) : Type :=
| Ok : A -> result A
| Err : error -> result A.

Arguments Ok {A} _.
Arguments Err {A} _.

Definition bind {A B : Type} (r : result A) (f : A -> result B) : result B :=
  match r with
  | Ok a => f a
  | Err e => Err e
  end.

Notation "x <- e ;; k" := (bind e (fun x => k))
  (at level 61, e at next level, right associativity).

(** [sortBy]: ["price"] or ["createdAt"]. *)
Inductive SortBy : Type := price_sort | createdAt_sort.

(** [status]: ["active"] or ["inactive"]. *)
Inductive StatusFilter : Type := active | inactive.

(** [ids] and [contracts] are a single string or an array of strings. *)
Inductive one_or_many : Type :=
| One : string -> one_or_many
| Many : list string -> one_or_many.

(** [request.query] as it arrives. *)
Module Raw.
Record t : Type := mk {
  ids : option one_or_many;
  token : option string;
  maker : option string;
  contracts : option one_or_many;
  status : option StatusFilter;
  includePrivate : option bool;
  includeMetadata : option bool;
  includeRawData : option bool;
  sortBy : option SortBy;
  continuation : option string;
  limit : option Z
}.
End Raw.

(** [request.query] once validated: the defaults are filled in. *)
Module Query.
Record t : Type := mk {
  ids : option one_or_many;
  token : option string;
  maker : option string;
  contracts : option one_or_many;
  status : option StatusFilter;
  includePrivate : bool;
  includeMetadata : bool;
  includeRawData : bool;
  sortBy : SortBy;
  continuation : option string;
  limit : Z
}.
End Query.

(** A record of the [orders] table.  Columns that no filter, sort key or
    projected amount reads ([value], [valid_between], [expiration],
    [source_id_int], [fee_breakdown], [updated_at], [raw_data],
    [token_set_schema_hash]) are left out.  Byte columns are written as
    their hexadecimal text, and [created_at] as its epoch in seconds:
    the [SELECT] list returns that number and [to_timestamp] reads it
    back. *)
Module Order.
Record t : Type := mk {
  id : string;
  kind : string;
  side : string;
  token_set_id : string;
  contract : string;
  maker : string;
  taker : option string;
  currency : option string;
  price : Numeric.numeric;
  currency_price : option Numeric.numeric;
  fee_bps : Z;
  created_at : Numeric.numeric;
  fillability_status : string;
  approval_status : string
}.
End Order.

(** A row of [rawResult]: the [SELECT] list of [baseQuery]. *)
Module Row.
Record t : Type := mk {
  id : string;
  kind : string;
  side : string;
  token_set_id : string;
  contract : string;
  maker : string;
  taker : option string;
  currency : option string;
  price : Numeric.numeric;
  currency_price : option Numeric.numeric;
  fee_bps : Z;
  created_at : Numeric.numeric;
  status : string
}.
End Row.

Definition present {A : Type} (o : option A) : bool :=
  match o with
  | Some _ => true
  | None => false
  end.

Definition default {A : Type} (d : A) (o : option A) : A :=
  match o with
  | Some a => a
  | None => d
  end.

(** *** Projection of a row *)

(** Modelled from the spec: [getNetAmount] of [@/common/utils] is not among
    the sources at hand.  The net amount is the gross amount times
    (10000 - feeBps), divided by 10000. *)
Definition getNetAmount (gross : Numeric.numeric) (bps : Z) : Numeric.numeric :=
  Numeric.mk (Numeric.unscaled gross * (10000 - bps)) (Numeric.scale gross + 4).

Record amounts : Type := mk_amounts {
  amount : Numeric.numeric;
  nativeAmount : Numeric.numeric
}.

Record prices : Type := mk_prices { gross : amounts; net : amounts }.

(** The currency handed to [getJoiPriceObject]: the one of the row, or
    the native asset of the side. *)
Inductive currency_ref : Type :=
| Currency : string -> currency_ref
| Eth : currency_ref
| Weth : currency_ref.

(** An element of [orders] in the response.  The price is kept as the
    arguments of [getJoiPriceObject], whose formatting is external. *)
Module Listing.
Record t : Type := mk {
  id : string;
  kind : string;
  side : string;
  status : string;
  tokenSetId : string;
  contract : string;
  maker : string;
  price : prices * currency_ref;
  feeBps : Z
}.
End Listing.

Definition project (r : Row.t) : Listing.t :=
  Listing.mk (Row.id r) (Row.kind r) (Row.side r) (Row.status r)
    (Row.token_set_id r) (Row.contract r) (Row.maker r)
    (mk_prices
       (mk_amounts (default (Row.price r) (Row.currency_price r)) (Row.price r))
       (mk_amounts
          (getNetAmount (default (Row.price r) (Row.currency_price r)) (Row.fee_bps r))
          (getNetAmount (Row.price r) (Row.fee_bps r))),
     match Row.currency r with
     | Some c => Currency c
     | None => if String.eqb (Row.side r) "sell" then Eth else Weth
     end)
    (Row.fee_bps r).

Record response : Type := mk_response {
  orders : list Listing.t;
  continuation : option string
}.

(** ** Parameters of the endpoint

    The patterns of [regex] ([@/common/utils]) are not among the sources
    at hand: they are taken as given.  So is the way the store reads
    the text bound to [$/priceOrCreatedAt/]: as a numeric where it is
    compared with [orders.price], and through [to_timestamp] where it is
    compared with [orders.created_at]; a text the store does not accept
    has no reading. *)
Record patterns : Type := mk_patterns {
  regex_token : string -> bool;
  regex_address : string -> bool;
  regex_base64 : string -> bool
}.

Record reading : Type := mk_reading {
  read_numeric : string -> option Numeric.numeric;
  to_timestamp : string -> option Numeric.numeric
}.

Section Endpoint.

Variable regex : patterns.
Variable db : reading.

(** ** Query validation ([validate.query])

    Joi checks the keys in the order of the schema, each against its own
    rule, and then the rules on the object ([.or], [.with]); it stops at
    the first failure.  A string is not empty; [.lowercase()] converts
    the value before the pattern is tried and the converted value is
    what the handler receives.  Of the keys, [sortBy] carries the one
    rule that looks at another key: with [token] present it may be
    ["price"] or ["createdAt"], without it only ["createdAt"]. *)

Definition lowercase_char (c : ascii) : ascii :=
  let n := N_of_ascii c in
  if ((65 <=? n) && (n <=? 90))%N then ascii_of_N (n + 32) else c.

Fixpoint lowercase (s : string) : string :=
  match s with
  | EmptyString => EmptyString
  | String c s' => String (lowercase_char c) (lowercase s')
  end.

Definition lowercase_all (v : one_or_many) : one_or_many :=
  match v with
  | One s => One (lowercase s)
  | Many l => Many (map lowercase l)
  end.

(** [Joi.string().lowercase().pattern(p)] *)
Definition lowercase_pattern (p : string -> bool) (s : string) : bool :=
  nonempty s && p (lowercase s).

Definition optional {A : Type} (rule : A -> bool) (o : option A) : bool :=
  match o with
  | Some a => rule a
  | None => true
  end.

(** [ids]: a string or an array of strings. *)
Definition ids_rule (v : one_or_many) : bool :=
  match v with
  | One s => nonempty s
  | Many l => forallb nonempty l
  end.

(** [contracts]: an array of at most 50 addresses, or one address. *)
Definition contracts_rule (v : one_or_many) : bool :=
  match v with
  | One s => lowercase_pattern (regex_address regex) s
  | Many l =>
      forallb (lowercase_pattern (regex_address regex)) l &&
      (length l <=? 50)%nat
  end.

Definition continuation_rule (s : string) : bool :=
  nonempty s && regex_base64 regex s.

(** [limit]: an integer from 1 to 1000. *)
Definition limit_rule (l : Z) : bool := (1 <=? l) && (l <=? 1000).

(** The keys checked before [sortBy]. *)
Definition keys_before_sortBy (raw : Raw.t) : bool :=
  optional ids_rule (Raw.ids raw) &&
  optional (lowercase_pattern (regex_token regex)) (Raw.token raw) &&
  optional (lowercase_pattern (regex_address regex)) (Raw.maker raw) &&
  optional contracts_rule (Raw.contracts raw).

(** The keys checked after [sortBy]. *)
Definition continuation_key (raw : Raw.t) : bool :=
  optional continuation_rule (Raw.continuation raw).

Definition limit_key (raw : Raw.t) : bool := optional limit_rule (Raw.limit raw).

Definition sortBy_allowed (raw : Raw.t) : bool :=
  match Raw.sortBy raw with
  | None => true
  | Some createdAt_sort => true
  | Some price_sort => present (Raw.token raw)
  end.

(** [.or("ids", "token", "contracts", "maker")] *)
Definition or_ids_token_contracts_maker (raw : Raw.t) : bool :=
  present (Raw.ids raw) || present (Raw.token raw) ||
  present (Raw.contracts raw) || present (Raw.maker raw).

(** [.with("status", "maker")] *)
Definition with_status_maker (raw : Raw.t) : bool :=
  implb (present (Raw.status raw)) (present (Raw.maker raw)).

(** The query handed to the handler: converted values and defaults. *)
Definition converted (raw : Raw.t) : Query.t :=
  Query.mk (Raw.ids raw) (option_map lowercase (Raw.token raw))
    (option_map lowercase (Raw.maker raw))
    (option_map lowercase_all (Raw.contracts raw)) (Raw.status raw)
    (default false (Raw.includePrivate raw))
    (default false (Raw.includeMetadata raw))
    (default false (Raw.includeRawData raw))
    (default createdAt_sort (Raw.sortBy raw))
    (Raw.continuation raw)
    (default 50 (Raw.limit raw)).

Definition validate (raw : Raw.t) : result Query.t :=
  if negb (keys_before_sortBy raw) then Err InvalidParameter
  else if negb (sortBy_allowed raw) then Err InvalidSortForFilter
  else if negb (continuation_key raw) then Err InvalidContinuation
  else if negb (limit_key raw) then Err InvalidParameter
  else if negb (or_ids_token_contracts_maker raw) then Err InvalidFilterCombination
  else if negb (with_status_maker raw) then Err InvalidFilterCombination
  else Ok (converted raw).

(** ** Status classifier: the [CASE] expression of the [SELECT] list *)

Inductive status_column : Type := fillability_status | approval_status.

Definition status_flag (c : status_column) (fillability approval : string) : string :=
  match c with
  | fillability_status => fillability
  | approval_status => approval
  end.

(** [WHEN column = literal THEN label], in the order written. *)
Definition status_when : list (status_column * string * string) :=
  [ (fillability_status, "filled", "filled");
    (fillability_status, "cancelled", "cancelled");
    (fillability_status, "expired", "expired");
    (fillability_status, "no-balance", "inactive");
    (approval_status, "no-approval", "inactive") ].

Definition status_else : string := "active".

Fixpoint eval_case (whens : list (status_column * string * string))
  (otherwise : string) (fillability approval : string) : string :=
  match whens with
  | [] => otherwise
  | (c, v, label) :: rest =>
      if String.eqb (status_flag c fillability approval) v then label
      else eval_case rest otherwise fillability approval
  end.

Definition derived_status (fillability approval : string) : string :=
  eval_case status_when status_else fillability approval.

(** ** The statement: conditions, ordering, limit *)

Inductive column : Type := col_price | col_created_at | col_id.

Inductive direction : Type := ASC | DESC.

Inductive row_op : Type := GT | LT.

(** The clauses pushed on [conditions], each with the value bound to its
    placeholder. *)
Inductive condition : Type :=
| SideSell : condition
| IdIn : list string -> condition
| IdEq : string -> condition
| TokenSetEq : string -> condition
| ContractIn : list string -> condition
| MakerEq : string -> condition
| TakerPublic : condition
| FillableApproved : condition
| PotentiallyValid : condition
| RowCmp : list column -> row_op -> list string -> condition.

Definition column_name (c : column) : string :=
  match c with
  | col_price => "orders.price"
  | col_created_at => "orders.created_at"
  | col_id => "orders.id"
  end.

Definition op_text (op : row_op) : string :=
  match op with
  | GT => ">"
  | LT => "<"
  end.

(** The placeholder compared with a column. *)
Definition column_param (c : column) : string :=
  match c with
  | col_price => "$/priceOrCreatedAt/"
  | col_created_at => "to_timestamp($/priceOrCreatedAt/)"
  | col_id => "$/id/"
  end.

Definition join (sep : string) (l : list string) : string := String.concat sep l.

Definition render (c : condition) : string :=
  match c with
  | SideSell => "orders.side = 'sell'"
  | IdIn _ => "orders.id IN ($/ids:csv/)"
  | IdEq _ => "orders.id = $/ids/"
  | TokenSetEq _ => "orders.token_set_id = $/tokenSetId/"
  | ContractIn _ => "orders.contract IN ($/contractsFilter:raw/)"
  | MakerEq _ => "orders.maker = $/maker/"
  | TakerPublic =>
      "orders.taker = '\x0000000000000000000000000000000000000000' OR orders.taker IS NULL"
  | FillableApproved =>
      "orders.fillability_status = 'fillable' AND orders.approval_status = 'approved'"
  | PotentiallyValid =>
      "orders.fillability_status = 'no-balance' OR (orders.fillability_status = 'fillable' AND orders.approval_status != 'approved')"
  | RowCmp cols op _ =>
      "(" ++ join ", " (map column_name cols) ++ ") " ++ op_text op ++
      " (" ++ join ", " (map column_param cols) ++ ")"
  end.

Definition render_order_item (it : column * direction) : string :=
  column_name (fst it) ++
  match snd it with
  | ASC => ""
  | DESC => " DESC"
  end.

Record statement : Type := mk_statement {
  where_ : list condition;
  order_by : list (column * direction);
  limit_ : Z
}.

(** The text appended to the [SELECT ... FROM orders] of [baseQuery]. *)
Definition sql_text (s : statement) : string :=
  match where_ s with
  | [] => ""
  | _ :: _ => " WHERE " ++ join " AND " (map (fun c => "(" ++ render c ++ ")") (where_ s))
  end ++
  " ORDER BY " ++ join ", " (map render_order_item (order_by s)) ++
  " LIMIT $/limit/".

(** *** Meaning of the statement on a list of orders *)

Inductive value : Type :=
| VNum : Numeric.numeric -> value
| VText : string -> value.

Definition compare_value (a b : value) : comparison :=
  match a, b with
  | VNum x, VNum y => Numeric.compare x y
  | VText x, VText y => String.compare x y
  | VNum _, VText _ => Lt
  | VText _, VNum _ => Gt
  end.

Definition column_value (c : column) (o : Order.t) : value :=
  match c with
  | col_price => VNum (Order.price o)
  | col_created_at => VNum (Order.created_at o)
  | col_id => VText (Order.id o)
  end.

(** The value a bound text stands for when compared with a column: the
    store reads it as a numeric for the price, through [to_timestamp]
    for the creation time, and as it is for the id. *)
Definition read_param (c : column) (text : string) : option value :=
  match c with
  | col_price => option_map VNum (read_numeric db text)
  | col_created_at => option_map VNum (to_timestamp db text)
  | col_id => Some (VText text)
  end.

Fixpoint read_params (cols : list column) (texts : list string) : option (list value) :=
  match cols, texts with
  | [], [] => Some []
  | c :: cols', t :: texts' =>
      match read_param c t, read_params cols' texts' with
      | Some v, Some vs => Some (v :: vs)
      | _, _ => None
      end
  | _, _ => None
  end.

(** Row comparison: the first differing position decides. *)
Fixpoint compare_tuple (a b : list value) : comparison :=
  match a, b with
  | [], [] => Eq
  | [], _ :: _ => Lt
  | _ :: _, [] => Gt
  | x :: a', y :: b' =>
      match compare_value x y with
      | Eq => compare_tuple a' b'
      | c => c
      end
  end.

Definition op_holds (op : row_op) (c : comparison) : bool :=
  match op, c with
  | GT, Gt => true
  | LT, Lt => true
  | _, _ => false
  end.

Definition zero_address : string := "0x0000000000000000000000000000000000000000".

(** Whether an order passes a condition the store can evaluate.  A
    condition it cannot evaluate (an empty [IN] list, a cursor it does
    not read, see [well_typed]) makes the whole statement fail in
    [manyOrNone] and is never asked of an order. *)
Definition holds (c : condition) (o : Order.t) : bool :=
  match c with
  | SideSell => String.eqb (Order.side o) "sell"
  | IdIn l => existsb (String.eqb (Order.id o)) l
  | IdEq s => String.eqb (Order.id o) s
  | TokenSetEq s => String.eqb (Order.token_set_id o) s
  | ContractIn l => existsb (String.eqb (Order.contract o)) l
  | MakerEq m => String.eqb (Order.maker o) m
  | TakerPublic =>
      match Order.taker o with
      | Some t => String.eqb t zero_address
      | None => true
      end
  | FillableApproved =>
      String.eqb (Order.fillability_status o) "fillable" &&
      String.eqb (Order.approval_status o) "approved"
  | PotentiallyValid =>
      String.eqb (Order.fillability_status o) "no-balance" ||
      (String.eqb (Order.fillability_status o) "fillable" &&
       negb (String.eqb (Order.approval_status o) "approved"))
  | RowCmp cols op texts =>
      match read_params cols texts with
      | Some vs => op_holds op (compare_tuple (map (fun c => column_value c o) cols) vs)
      | None => false
      end
  end.

(** A condition the store can evaluate: its bound texts read as values
    of the columns they are compared with, and its list, if it has one,
    is not empty ([IN ()] is not a statement). *)
Definition well_typed (c : condition) : bool :=
  match c with
  | RowCmp cols _ texts => present (read_params cols texts)
  | IdIn [] => false
  | ContractIn [] => false
  | _ => true
  end.

Fixpoint compare_keys (ob : list (column * direction)) (a b : list value) : comparison :=
  match ob, a, b with
  | (_, d) :: ob', x :: a', y :: b' =>
      match compare_value x y with
      | Eq => compare_keys ob' a' b'
      | c => match d with ASC => c | DESC => CompOpp c end
      end
  | _, _, _ => Eq
  end.

Definition sort_key (ob : list (column * direction)) (o : Order.t) : list value :=
  map (fun it => column_value (fst it) o) ob.

(** [a] may stay before [b] under [ORDER BY ob]. *)
Definition before (ob : list (column * direction)) (a b : Order.t) : bool :=
  match compare_keys ob (sort_key ob a) (sort_key ob b) with
  | Gt => false
  | _ => true
  end.

Fixpoint insert (ob : list (column * direction)) (x : Order.t) (l : list Order.t) : list Order.t :=
  match l with
  | [] => [x]
  | y :: l' => if before ob x y then x :: l else y :: insert ob x l'
  end.

Definition sort (ob : list (column * direction)) (l : list Order.t) : list Order.t :=
  fold_right (insert ob) [] l.

(** The [SELECT] list. *)
Definition select (o : Order.t) : Row.t :=
  Row.mk (Order.id o) (Order.kind o) (Order.side o) (Order.token_set_id o)
    (Order.contract o) (Order.maker o) (Order.taker o) (Order.currency o)
    (Order.price o) (Order.currency_price o) (Order.fee_bps o) (Order.created_at o)
    (derived_status (Order.fillability_status o) (Order.approval_status o)).

Definition matching (s : statement) (store : list Order.t) : list Order.t :=
  filter (fun o => forallb (fun c => holds c o) (where_ s)) store.

(** [redb.manyOrNone]: a statement the store cannot evaluate (an empty
    [IN] list, a cursor it does not read), or a negative [LIMIT],
    fails. *)
Definition manyOrNone (store : list Order.t) (s : statement) : result (list Row.t) :=
  if forallb well_typed (where_ s) && (0 <=? limit_ s)
  then Ok (map select
             (firstn (Z.to_nat (limit_ s)) (sort (order_by s) (matching s store))))
  else Err UpstreamQueryFailure.

(** ** Continuation tokens *)

(** Modelled from the spec: [buildContinuation] of [@/common/utils] is not
    among the sources at hand.  The token is the base64 text of the
    delimiter-joined pair it is given. *)
Definition buildContinuation (c : string) : string := Base64.encode c.

Fixpoint split_on (sep : ascii) (s : string) : list string :=
  match s with
  | EmptyString => [""]
  | String c s' =>
      if Ascii.eqb c sep then "" :: split_on sep s'
      else
        match split_on sep s' with
        | [] => [String c ""]
        | piece :: pieces => String c piece :: pieces
        end
  end.

(** Modelled from the spec: [splitContinuation] of [@/common/utils] is not
    among the sources at hand.  The token is decoded, the text is checked
    against the expected shape, and the delimiter-separated parts are
    returned; a token that does not decode or does not have the shape
    fails with [InvalidContinuation]. *)
Definition splitContinuation (c : string) (regEx : Regex.re) : result (list string) :=
  match Base64.decode c with
  | Some text =>
      if Regex.test regEx text then Ok (split_on "_" text)
      else Err InvalidContinuation
  | None => Err InvalidContinuation
  end.

(** [/^\d+(.\d+)?_0x[a-f0-9]{64}$/] *)
Definition continuation_shape : Regex.re :=
  Regex.Seq (Regex.plus (Regex.Class is_digit))
    (Regex.Seq
       (Regex.opt (Regex.Seq (Regex.Class is_any) (Regex.plus (Regex.Class is_digit))))
       (Regex.Seq (Regex.lit "_0x") (Regex.rep 64 (Regex.Class is_hex)))).

(** ** The handler *)

Definition as_list (v : one_or_many) : list string :=
  match v with
  | One s => [s]
  | Many l => l
  end.

(** [_.replace(contract, "0x", "\\x")]: the first occurrence only. *)
Fixpoint replace_0x (s : string) : string :=
  match s with
  | String "0" (String "x" rest) => String "\" (String "x" rest)
  | String c rest => String c (replace_0x rest)
  | EmptyString => EmptyString
  end.

(** The text bound to [contractsFilter]. *)
Definition contractsFilter (contracts : list string) : string :=
  join "," (map (fun contract => "'" ++ replace_0x contract ++ "'") contracts).

Definition orderStatusFilter (query : Query.t) : condition :=
  match Query.maker query, Query.status query with
  | Some _, Some inactive => PotentiallyValid
  | _, _ => FillableApproved
  end.

Definition when_present {A : Type} (o : option A) (f : A -> condition) : list condition :=
  match o with
  | Some a => [f a]
  | None => []
  end.

(** [conditions] up to the push of [orderStatusFilter]. *)
Definition filters (query : Query.t) : list condition :=
  [SideSell]
  ++ when_present (Query.ids query)
       (fun ids => match ids with Many l => IdIn l | One s => IdEq s end)
  ++ when_present (Query.token query) (fun token => TokenSetEq ("token:" ++ token))
  ++ when_present (Query.contracts query) (fun contracts => ContractIn (as_list contracts))
  ++ when_present (Query.maker query) MakerEq
  ++ (if Query.includePrivate query then [] else [TakerPublic])
  ++ [orderStatusFilter query].

(** The clause pushed when [query.continuation] is set. *)
Definition pagination (query : Query.t) : result (list condition) :=
  match Query.continuation query with
  | Some c =>
      parts <- splitContinuation c continuation_shape ;;
      let priceOrCreatedAt_id := firstn 2 parts in
      match Query.sortBy query with
      | price_sort => Ok [RowCmp [col_price; col_id] GT priceOrCreatedAt_id]
      | createdAt_sort => Ok [RowCmp [col_created_at; col_id] LT priceOrCreatedAt_id]
      end
  | None => Ok []
  end.

Definition sorting (query : Query.t) : list (column * direction) :=
  match Query.sortBy query with
  | price_sort => [(col_price, ASC); (col_id, ASC)]
  | createdAt_sort => [(col_created_at, DESC); (col_id, DESC)]
  end.

(** [query.limit = Math.min(query.limit, 100)] *)
Definition clamped_limit (query : Query.t) : Z := Z.min (Query.limit query) 100.

Definition assemble (query : Query.t) : result statement :=
  page <- pagination query ;;
  Ok (mk_statement (filters query ++ page) (sorting query) (clamped_limit query)).

Definition rawResult (store : list Order.t) (query : Query.t) : result (list Row.t) :=
  s <- assemble query ;;
  manyOrNone store s.

(** [rawResult[rawResult.length - 1]] *)
Definition last_row (rows : list Row.t) : option Row.t :=
  nth_error rows (length rows - 1).

Definition sort_value (query : Query.t) (r : Row.t) : Numeric.numeric :=
  match Query.sortBy query with
  | price_sort => Row.price r
  | createdAt_sort => Row.created_at r
  end.

(** Reading a field of a missing last row throws. *)
Definition next_continuation (query : Query.t) (rows : list Row.t) : result (option string) :=
  if Z.of_nat (length rows) =? clamped_limit query then
    match last_row rows with
    | Some r =>
        Ok (Some (buildContinuation (Numeric.show (sort_value query r) ++ "_" ++ Row.id r)))
    | None => Err ProjectionFailure
    end
  else Ok None.

Definition handler (store : list Order.t) (query : Query.t) : result response :=
  rows <- rawResult store query ;;
  continuation <- next_continuation query rows ;;
  Ok (mk_response (map project rows) continuation).


(** ** Examples *)

Definition id_a : string :=
  "0x00000000000000000000000000000000000000000000000000000000000000aa".

Definition id_b : string :=
  "0x00000000000000000000000000000000000000000000000000000000000000bb".

Definition sample_contract : string :=
  "0x8d04a8c79ceb0889bdd12acdf3fa9d207ed3ff63".

Definition sample_token : string :=
  "0x8d04a8c79ceb0889bdd12acdf3fa9d207ed3ff63:1".

Definition sample_token_set : string :=
  "token:0x8d04a8c79ceb0889bdd12acdf3fa9d207ed3ff63:1".

Definition sample_maker : string :=
  "0xf296178d553c8ec21a2fbd2c5dda8ca9ac905a00".

Definition sell_order (id : string) (price created : Z) : Order.t :=
  Order.mk id "seaport" "sell" sample_token_set sample_contract sample_maker None None
    (Numeric.of_Z price) None 250 (Numeric.of_Z created) "fillable" "approved".

Definition two_orders : list Order.t :=
  [sell_order id_b 2 20; sell_order id_a 1 10].

Definition by_token (sortBy : SortBy) (c : option string) (limit : Z) : Query.t :=
  Query.mk None (Some sample_token) None None None false false false sortBy c limit.

Example price_page_clause :
  render (RowCmp [col_price; col_id] GT []) =
  "(orders.price, orders.id) > ($/priceOrCreatedAt/, $/id/)".
Proof. reflexivity. Qed.

Example createdAt_page_clause :
  render (RowCmp [col_created_at; col_id] LT []) =
  "(orders.created_at, orders.id) < (to_timestamp($/priceOrCreatedAt/), $/id/)".
Proof. reflexivity. Qed.

Example price_sort_text :
  option_map sql_text
    (match assemble (by_token price_sort None 2) with
     | Ok s => Some s
     | Err _ => None
     end) =
  Some " WHERE (orders.side = 'sell') AND (orders.token_set_id = $/tokenSetId/) AND (orders.taker = '\x0000000000000000000000000000000000000000' OR orders.taker IS NULL) AND (orders.fillability_status = 'fillable' AND orders.approval_status = 'approved') ORDER BY orders.price, orders.id LIMIT $/limit/".
Proof. vm_compute. reflexivity. Qed.

Example createdAt_sort_text :
  join ", " (map render_order_item (sorting (by_token createdAt_sort None 2))) =
  "orders.created_at DESC, orders.id DESC".
Proof. reflexivity. Qed.

(** * Properties *)

(** ** Status classifier *)

Definition status_labels : list string :=
  ["filled"; "cancelled"; "expired"; "inactive"; "active"].

(** C2: the derived status is a function of the pair (fillability,
    approval) that yields exactly one of the five labels, by the
    precedence: filled, then cancelled, then expired, then no-balance
    gives inactive, then no-approval gives inactive, else active.  It is
    the status of every selected row and of its projection. *)
Theorem derived_status_precedence (fillability approval : string) :
  (fillability = "filled" -> derived_status fillability approval = "filled") /\
  (fillability = "cancelled" -> derived_status fillability approval = "cancelled") /\
  (fillability = "expired" -> derived_status fillability approval = "expired") /\
  (fillability = "no-balance" -> derived_status fillability approval = "inactive") /\
  (fillability <> "filled" -> fillability <> "cancelled" ->
   fillability <> "expired" -> fillability <> "no-balance" ->
   (approval = "no-approval" -> derived_status fillability approval = "inactive") /\
   (approval <> "no-approval" -> derived_status fillability approval = "active")) /\
  In (derived_status fillability approval) status_labels /\
  (forall o : Order.t,
      Order.fillability_status o = fillability ->
      Order.approval_status o = approval ->
      Listing.status (project (select o)) = derived_status fillability approval).
Proof.
  unfold derived_status, status_when, status_else, status_labels.
  repeat split.
  - intros ->. reflexivity.
  - intros ->. reflexivity.
  - intros ->. reflexivity.
  - intros ->. reflexivity.
  - intros ->. cbn [eval_case status_flag].
    apply String.eqb_neq in H, H0, H1, H2. rewrite H, H0, H1, H2. reflexivity.
  - intros Ha. cbn [eval_case status_flag].
    apply String.eqb_neq in H, H0, H1, H2, Ha. rewrite H, H0, H1, H2, Ha. reflexivity.
  - cbn [eval_case status_flag].
    repeat match goal with
           | |- context [String.eqb ?x ?y] => destruct (String.eqb x y)
           end; simpl; auto 10.
  - intros o <- <-. reflexivity.
Qed.

(** ** Validation *)









Lemma validate_ok_iff raw query :
  validate raw = Ok query <->
  keys_before_sortBy raw = true /\ sortBy_allowed raw = true /\
  continuation_key raw = true /\ limit_key raw = true /\
  or_ids_token_contracts_maker raw = true /\ with_status_maker raw = true /\
  query = converted raw.
Proof.
  unfold validate.
  destruct (keys_before_sortBy raw), (sortBy_allowed raw), (continuation_key raw),
    (limit_key raw), (or_ids_token_contracts_maker raw), (with_status_maker raw);
    simpl; split; intros H; try discriminate;
    try (decompose [and] H; discriminate).
  - inversion H. repeat split; reflexivity.
  - decompose [and] H. subst query. reflexivity.
Qed.




(** ** The assembled statement *)

Definition is_status_predicate (c : condition) : bool :=
  match c with
  | FillableApproved | PotentiallyValid => true
  | _ => false
  end.

(** The comparison that selects the rows after a cursor when scanning in
    a direction. *)
Definition scan_op (d : direction) : row_op :=
  match d with
  | ASC => GT
  | DESC => LT
  end.

Lemma filters_status_predicate query :
  filter is_status_predicate (filters query) = [orderStatusFilter query].
Proof.
  unfold filters, orderStatusFilter, when_present.
  destruct query as [ids token maker contracts status ip im ir sb c l]; simpl.
  destruct ids as [[|]|], token, maker, contracts, status as [[|]|], ip; reflexivity.
Qed.

Lemma pagination_inv query page :
  pagination query = Ok page ->
  (Query.continuation query = None /\ page = []) \/
  (exists token parts,
      Query.continuation query = Some token /\
      splitContinuation token continuation_shape = Ok parts /\
      page = [RowCmp (map fst (sorting query))
                (match Query.sortBy query with price_sort => GT | createdAt_sort => LT end)
                (firstn 2 parts)]).
Proof.
  unfold pagination, sorting. intros H.
  destruct (Query.continuation query) as [token|].
  - right. destruct (splitContinuation token continuation_shape) as [parts|e] eqn:E;
      simpl in H; [|discriminate].
    exists token, parts.
    destruct (Query.sortBy query); inversion H; auto.
  - left. inversion H. auto.
Qed.

Lemma assemble_inv query stmt :
  assemble query = Ok stmt ->
  exists page, pagination query = Ok page /\
    stmt = mk_statement (filters query ++ page) (sorting query) (clamped_limit query).
Proof.
  unfold assemble. destruct (pagination query) as [page|e]; simpl; intros H;
    inversion H. exists page. auto.
Qed.

Lemma rawResult_inv store query rows :
  rawResult store query = Ok rows ->
  exists stmt, assemble query = Ok stmt /\
    forallb well_typed (where_ stmt) = true /\
    0 <= limit_ stmt /\
    rows = map select
             (firstn (Z.to_nat (limit_ stmt)) (sort (order_by stmt) (matching stmt store))).
Proof.
  unfold rawResult. destruct (assemble query) as [stmt|e]; simpl; [|discriminate].
  unfold manyOrNone.
  destruct (forallb well_typed (where_ stmt)) eqn:W; simpl; [|discriminate].
  destruct (0 <=? limit_ stmt) eqn:L; [|discriminate].
  intros H. inversion H. exists stmt. apply Z.leb_le in L. auto.
Qed.

(** C9: the statement carries exactly one status predicate, whatever
    other filters are present.  It is "fillable and approved", except
    when maker is present and status is inactive, where it is
    "no-balance, or fillable and not approved". *)
Theorem one_status_predicate (query : Query.t) :
  filter is_status_predicate (filters query) = [orderStatusFilter query] /\
  (forall stmt, assemble query = Ok stmt ->
     filter is_status_predicate (where_ stmt) = [orderStatusFilter query]) /\
  (Query.maker query <> None /\ Query.status query = Some inactive ->
   orderStatusFilter query = PotentiallyValid) /\
  (~ (Query.maker query <> None /\ Query.status query = Some inactive) ->
   orderStatusFilter query = FillableApproved) /\
  (forall o, holds FillableApproved o = true <->
             Order.fillability_status o = "fillable" /\
             Order.approval_status o = "approved") /\
  (forall o, holds PotentiallyValid o = true <->
             Order.fillability_status o = "no-balance" \/
             (Order.fillability_status o = "fillable" /\
              Order.approval_status o <> "approved")).
Proof.
  split; [apply filters_status_predicate|].
  split; [|split; [|split; [|split]]].
  - intros stmt A. apply assemble_inv in A. destruct A as (page & P & ->). cbn [where_].
    rewrite filter_app, filters_status_predicate.
    apply pagination_inv in P.
    destruct P as [[_ ->] | (token & parts & _ & _ & ->)]; reflexivity.
  - unfold orderStatusFilter. intros [M ->].
    destruct (Query.maker query); [reflexivity | contradiction].
  - unfold orderStatusFilter. intros N.
    destruct (Query.maker query) as [m|]; [|reflexivity].
    destruct (Query.status query) as [[|]|]; try reflexivity.
    exfalso. apply N. split; [discriminate | reflexivity].
  - intros o. simpl. rewrite andb_true_iff, !String.eqb_eq. reflexivity.
  - intros o. simpl.
    rewrite orb_true_iff, andb_true_iff, negb_true_iff, !String.eqb_eq, String.eqb_neq.
    reflexivity.
Qed.

(** C5: the limit of the statement is the minimum of the requested page
    size and 100, so a page never has more than 100 rows. *)
Theorem page_limit_clamped (store : list Order.t) (query : Query.t) (rows : list Row.t)
  (H : rawResult store query = Ok rows) :
  (exists stmt, assemble query = Ok stmt /\
                limit_ stmt = Z.min (Query.limit query) 100) /\
  Z.of_nat (length rows) <= Z.min (Query.limit query) 100 /\
  (length rows <= 100)%nat.
Proof.
  apply rawResult_inv in H. destruct H as (stmt & A & _ & L & ->).
  pose proof A as A'. apply assemble_inv in A'. destruct A' as (page & _ & E).
  assert (EL : limit_ stmt = Z.min (Query.limit query) 100) by (rewrite E; reflexivity).
  split; [exists stmt; auto|].
  rewrite length_map.
  pose proof (firstn_le_length (Z.to_nat (limit_ stmt))
                (sort (order_by stmt) (matching stmt store))) as F.
  rewrite <- EL. split; lia.
Qed.

Definition many_orders : list Order.t := repeat (sell_order id_a 1 10) 120.

(** ** Continuation emission *)

Lemma last_row_inv rows r :
  last_row rows = Some r -> exists front, rows = (front ++ [r])%list.
Proof.
  unfold last_row. intros H.
  destruct rows as [|x rows'] using rev_ind; [discriminate|].
  clear IHrows'. exists rows'.
  rewrite length_app in H. simpl in H.
  rewrite nth_error_app2 in H by lia.
  replace (length rows' + 1 - 1 - length rows')%nat with 0%nat in H by lia.
  simpl in H. inversion H. reflexivity.
Qed.

Lemma handler_inv store query resp :
  handler store query = Ok resp ->
  exists rows c, rawResult store query = Ok rows /\
                 next_continuation query rows = Ok c /\
                 resp = mk_response (map project rows) c.
Proof.
  unfold handler. destruct (rawResult store query) as [rows|e]; simpl.
  - destruct (next_continuation query rows) as [c|e] eqn:N; simpl.
    + intros H. inversion H. exists rows, c.
      split; [reflexivity | split; [exact N | reflexivity]].
    + discriminate.
  - discriminate.
Qed.

Lemma last_row_app front (r : Row.t) : last_row (front ++ [r]) = Some r.
Proof.
  unfold last_row. rewrite length_app. simpl.
  rewrite nth_error_app2 by lia.
  replace (length front + 1 - 1 - length front)%nat with 0%nat by lia.
  reflexivity.
Qed.

(** C7: when the query returns its rows and the limit is at least 1, the
    handler answers with the projected rows, and the response has a
    continuation token exactly when the page has as many rows as the
    clamped limit.  The token is then built from the last row of the
    page: from its price under the price sort and its created_at under
    the createdAt sort, joined with its id.  A shorter page has none. *)
Theorem continuation_iff_full_page (store : list Order.t) (query : Query.t)
  (rows : list Row.t)
  (H : rawResult store query = Ok rows) (L : 1 <= Query.limit query) :
  exists resp,
    handler store query = Ok resp /\
    orders resp = map project rows /\
    (continuation resp <> None <->
     Z.of_nat (length (orders resp)) = Z.min (Query.limit query) 100) /\
    (Z.of_nat (length (orders resp)) < Z.min (Query.limit query) 100 ->
     continuation resp = None) /\
    (Z.of_nat (length (orders resp)) = Z.min (Query.limit query) 100 ->
     exists front last,
       rows = (front ++ [last])%list /\
       continuation resp =
         Some (buildContinuation
                 (Numeric.show
                    (match Query.sortBy query with
                     | price_sort => Row.price last
                     | createdAt_sort => Row.created_at last
                     end) ++ "_" ++ Row.id last))).
Proof.
  unfold handler. rewrite H. cbn [bind].
  unfold next_continuation, clamped_limit.
  destruct (Z.of_nat (length rows) =? Z.min (Query.limit query) 100) eqn:E.
  - apply Z.eqb_eq in E.
    assert (N : rows <> []) by (intros ->; simpl in E; lia).
    destruct (exists_last N) as (front & r & ->).
    rewrite last_row_app. cbn [bind].
    eexists. split; [reflexivity|]. cbn [orders continuation].
    rewrite length_map.
    split; [reflexivity|]. split; [|split].
    + split; [auto | discriminate].
    + lia.
    + intros _. exists front, r. split; reflexivity.
  - apply Z.eqb_neq in E. cbn [bind].
    eexists. split; [reflexivity|]. cbn [orders continuation].
    rewrite length_map.
    split; [reflexivity|]. split; [|split].
    + split; [intros C; contradiction | intros C; contradiction].
    + reflexivity.
    + intros C. contradiction.
Qed.

(** ** Projection *)

Lemma pow10_pos k : 0 < Numeric.pow10 k.
Proof.
  unfold Numeric.pow10. apply Z.pow_pos_nonneg; lia.
Qed.

Lemma net_amount_value (g : Numeric.numeric) (bps : Z) :
  (Numeric.to_Q (getNetAmount g bps) ==
   Numeric.to_Q g * inject_Z (10000 - bps) / inject_Z 10000)%Q.
Proof.
  unfold getNetAmount, Numeric.to_Q. cbn [Numeric.unscaled Numeric.scale].
  assert (P : Numeric.pow10 (Numeric.scale g + 4) = Numeric.pow10 (Numeric.scale g) * 10000).
  { unfold Numeric.pow10. rewrite Nat2Z.inj_add, Z.pow_add_r by lia. reflexivity. }
  pose proof (pow10_pos (Numeric.scale g)) as Pg.
  unfold Qeq, Qdiv, Qmult, Qinv, inject_Z. cbn [Qnum Qden].
  rewrite P. rewrite !Pos2Z.inj_mul, !Z2Pos.id by lia. lia.
Qed.

(** C8: the gross amount of a projected row is the currency price when
    there is one and the native price otherwise; each net amount is its
    gross amount times (10000 - feeBps) / 10000, for the native and for
    the currency amount alike.  A price of 100 with 250 bps nets 97.5. *)
Theorem net_amount_formula (r : Row.t) :
  let p := fst (Listing.price (project r)) in
  amount (gross p) = match Row.currency_price r with
                     | Some c => c
                     | None => Row.price r
                     end /\
  nativeAmount (gross p) = Row.price r /\
  (Numeric.to_Q (amount (net p)) ==
   Numeric.to_Q (amount (gross p)) * inject_Z (10000 - Row.fee_bps r) / inject_Z 10000)%Q /\
  (Numeric.to_Q (nativeAmount (net p)) ==
   Numeric.to_Q (nativeAmount (gross p)) * inject_Z (10000 - Row.fee_bps r) / inject_Z 10000)%Q /\
  (Numeric.to_Q (getNetAmount (Numeric.of_Z 100) 250) == 975 # 10)%Q.
Proof.
  cbn zeta. unfold project. cbn [Listing.price fst gross net amount nativeAmount].
  split; [destruct (Row.currency_price r); reflexivity|].
  split; [reflexivity|].
  split; [apply net_amount_value|].
  split; [apply net_amount_value|].
  reflexivity.
Qed.

(** ** Keyset pagination *)

Lemma firstn_In {A : Type} (n : nat) (l : list A) (x : A) :
  In x (firstn n l) -> In x l.
Proof.
  revert l. induction n as [|n IH]; intros l H; simpl in H; [contradiction|].
  destruct l as [|y l]; simpl in H; [contradiction|].
  destruct H as [H | H]; [left; exact H | right; apply IH; exact H].
Qed.

Lemma insert_In ob x l y : In y (insert ob x l) <-> y = x \/ In y l.
Proof.
  induction l as [|z l IH]; simpl.
  - intuition.
  - destruct (before ob x z); simpl; rewrite ?IH; intuition.
Qed.

Lemma sort_In ob l y : In y (sort ob l) <-> In y l.
Proof.
  unfold sort. induction l as [|x l IH]; simpl; [reflexivity|].
  rewrite insert_In, IH. intuition.
Qed.

Lemma compare_value_antisym a b : compare_value a b = CompOpp (compare_value b a).
Proof.
  destruct a, b; simpl; try reflexivity.
  - unfold Numeric.compare. apply Z.compare_antisym.
  - apply String.compare_antisym.
Qed.

Lemma compare_keys_antisym ob a b :
  compare_keys ob a b = CompOpp (compare_keys ob b a).
Proof.
  revert a b. induction ob as [|[c d] ob IH]; intros a b; [reflexivity|].
  destruct a as [|x a], b as [|y b]; simpl; try reflexivity.
  rewrite (compare_value_antisym x y).
  destruct (compare_value y x), d; simpl; auto.
Qed.

Lemma before_total ob a b : before ob a b = false -> before ob b a = true.
Proof.
  unfold before. rewrite (compare_keys_antisym ob (sort_key ob a)).
  destruct (compare_keys ob (sort_key ob b) (sort_key ob a)); simpl;
    intros H; try discriminate; reflexivity.
Qed.

Definition ordered (ob : list (column * direction)) (a b : Order.t) : Prop :=
  before ob a b = true.

Lemma insert_sorted ob x l :
  Sorted (ordered ob) l -> Sorted (ordered ob) (insert ob x l).
Proof.
  induction l as [|y l IH]; intros S; simpl.
  - repeat constructor.
  - destruct (before ob x y) eqn:B.
    + constructor; [exact S | constructor; exact B].
    + inversion S as [|? ? S' Hd]; subst.
      constructor; [apply IH; exact S'|].
      apply before_total in B.
      destruct l as [|z l]; simpl.
      * constructor. exact B.
      * destruct (before ob x z); constructor; [exact B|].
        inversion Hd; subst. assumption.
Qed.

(** The rows of a page come in the order of the [ORDER BY]. *)
Lemma sort_sorted ob l : Sorted (ordered ob) (sort ob l).
Proof.
  unfold sort. induction l as [|x l IH]; simpl.
  - constructor.
  - apply insert_sorted. exact IH.
Qed.

(** Every returned row is the selection of a stored order on which all
    the conditions of the statement hold. *)
Lemma manyOrNone_sound store stmt rows r :
  manyOrNone store stmt = Ok rows -> In r rows ->
  exists o, In o store /\ r = select o /\
            forall c, In c (where_ stmt) -> holds c o = true.
Proof.
  unfold manyOrNone.
  destruct (forallb well_typed (where_ stmt) && (0 <=? limit_ stmt)); [|discriminate].
  intros H I. inversion H; subst rows; clear H.
  apply in_map_iff in I. destruct I as (o & <- & I).
  apply firstn_In in I. apply sort_In in I.
  unfold matching in I. apply filter_In in I. destruct I as [I F].
  exists o. split; [exact I|]. split; [reflexivity|].
  intros c Ic. exact (proj1 (forallb_forall _ _) F c Ic).
Qed.

Lemma op_holds_GT c : op_holds GT c = true -> c = Gt.
Proof.
  destruct c; simpl; intros H; [discriminate | discriminate | reflexivity].
Qed.

Lemma op_holds_LT c : op_holds LT c = true -> c = Lt.
Proof.
  destruct c; simpl; intros H; [discriminate | reflexivity | discriminate].
Qed.

(** A row that is greater than the cursor comes after it in ascending
    order, and a row that is less comes after it in descending order. *)
Lemma after_cursor (d : direction) (c1 c2 : column) (x1 x2 y1 y2 : value) :
  op_holds (scan_op d) (compare_tuple [x1; x2] [y1; y2]) = true ->
  compare_keys [(c1, d); (c2, d)] [y1; y2] [x1; x2] = Lt.
Proof.
  simpl.
  rewrite (compare_value_antisym y1 x1), (compare_value_antisym y2 x2).
  destruct d; simpl;
    destruct (compare_value x1 y1), (compare_value x2 y2); simpl;
    intros H; try discriminate; reflexivity.
Qed.

Lemma read_cursor (c : column) (texts : list string) (vs : list value) :
  c = col_price \/ c = col_created_at ->
  read_params [c; col_id] texts = Some vs ->
  exists k i cursor,
    texts = [k; i] /\ read_param c k = Some (VNum cursor) /\
    vs = [VNum cursor; VText i].
Proof.
  intros Hc H.
  destruct texts as [|k [|i [|x rest]]]; simpl in H.
  - discriminate.
  - destruct (read_param c k); discriminate.
  - destruct (read_param c k) as [v|] eqn:Pk; [|discriminate].
    inversion H; subst vs; clear H.
    assert (E : exists cursor, v = VNum cursor).
    { destruct Hc as [-> | ->]; simpl in Pk;
        [destruct (read_numeric db k) | destruct (to_timestamp db k)];
        inversion Pk; eexists; reflexivity. }
    destruct E as [cursor ->]. exists k, i, cursor. auto.
  - destruct (read_param c k); discriminate.
Qed.

Lemma firstn_2_inv {A : Type} (l : list A) (a b : A) :
  firstn 2 l = [a; b] -> exists rest, l = a :: b :: rest.
Proof.
  destruct l as [|x [|y rest]]; simpl; intros H; inversion H.
  exists rest. reflexivity.
Qed.

(** X17: when a request carries a continuation token, the pagination
    predicate of the statement compares the columns of the ORDER BY, in
    its order and direction, with the cursor as the store reads it (the
    first part as a numeric under the price sort, through to_timestamp
    under the createdAt sort).  Under the price sort every returned row
    has (price, id) strictly greater than that cursor, under the
    createdAt sort (created_at, id) strictly less; in both cases the row
    comes strictly after it in the order of the ORDER BY. *)
Theorem keyset_predicate_matches_order (store : list Order.t) (query : Query.t)
  (token : string) (rows : list Row.t)
  (Hc : Query.continuation query = Some token)
  (H : rawResult store query = Ok rows) :
  exists k i cursor,
    (exists rest, splitContinuation token continuation_shape = Ok (k :: i :: rest)) /\
    match Query.sortBy query with
    | price_sort => read_numeric db k
    | createdAt_sort => to_timestamp db k
    end = Some cursor /\
    (exists stmt op,
        assemble query = Ok stmt /\
        In (RowCmp (map fst (order_by stmt)) op [k; i]) (where_ stmt) /\
        Forall (fun it => scan_op (snd it) = op) (order_by stmt) /\
        order_by stmt =
          match Query.sortBy query with
          | price_sort => [(col_price, ASC); (col_id, ASC)]
          | createdAt_sort => [(col_created_at, DESC); (col_id, DESC)]
          end) /\
    forall r, In r rows ->
      match Query.sortBy query with
      | price_sort =>
          compare_tuple [VNum (Row.price r); VText (Row.id r)]
                        [VNum cursor; VText i] = Gt
      | createdAt_sort =>
          compare_tuple [VNum (Row.created_at r); VText (Row.id r)]
                        [VNum cursor; VText i] = Lt
      end /\
      exists o, In o store /\ r = select o /\
                compare_keys (sorting query) [VNum cursor; VText i]
                  (sort_key (sorting query) o) = Lt.
Proof.
  unfold rawResult in H.
  destruct (assemble query) as [stmt|e] eqn:A; simpl in H; [|discriminate].
  pose proof A as A'. apply assemble_inv in A'. destruct A' as (page & P & Es).
  apply pagination_inv in P.
  destruct P as [[N _] | (token' & parts & T & S & Ep)]; [congruence|].
  rewrite Hc in T. inversion T; subst token'; clear T.
  assert (W : well_typed (RowCmp (map fst (sorting query))
                            (match Query.sortBy query with
                             | price_sort => GT
                             | createdAt_sort => LT
                             end) (firstn 2 parts)) = true).
  { unfold manyOrNone in H.
    destruct (forallb well_typed (where_ stmt)) eqn:W; simpl in H; [|discriminate].
    apply (proj1 (forallb_forall _ _) W).
    rewrite Es, Ep. cbn [where_]. apply in_or_app. right. left. reflexivity. }
  cbn [well_typed] in W.
  destruct (read_params (map fst (sorting query)) (firstn 2 parts)) as [vs|] eqn:R;
    [clear W | discriminate].
  assert (R' : exists k i cursor,
             firstn 2 parts = [k; i] /\
             match Query.sortBy query with
             | price_sort => read_numeric db k
             | createdAt_sort => to_timestamp db k
             end = Some cursor /\
             vs = [VNum cursor; VText i]).
  { unfold sorting in R. destruct (Query.sortBy query); cbn [map fst] in R.
    - destruct (read_cursor col_price _ _ (or_introl eq_refl) R)
        as (k & i & cursor & F & Pk & E).
      exists k, i, cursor. simpl in Pk.
      destruct (read_numeric db k); inversion Pk. auto.
    - destruct (read_cursor col_created_at _ _ (or_intror eq_refl) R)
        as (k & i & cursor & F & Pk & E).
      exists k, i, cursor. simpl in Pk.
      destruct (to_timestamp db k); inversion Pk. auto. }
  destruct R' as (k & i & cursor & F & Pk & ->).
  exists k, i, cursor.
  split; [apply firstn_2_inv in F; destruct F as (rest & ->); exists rest; exact S|].
  split; [exact Pk|].
  split.
  { exists stmt, (match Query.sortBy query with price_sort => GT | createdAt_sort => LT end).
    split; [reflexivity|].
    rewrite Es, Ep, F. cbn [where_ order_by].
    split; [apply in_or_app; right; left; reflexivity|].
    unfold sorting. destruct (Query.sortBy query); split; try reflexivity;
      repeat constructor. }
  intros r I.
  destruct (manyOrNone_sound _ _ _ _ H I) as (o & Io & -> & Hh).
  assert (Hp : holds (RowCmp (map fst (sorting query))
                        (match Query.sortBy query with
                         | price_sort => GT
                         | createdAt_sort => LT
                         end) [k; i]) o = true).
  { apply Hh. rewrite Es, Ep, F. cbn [where_].
    apply in_or_app. right. left. reflexivity. }
  cbn [holds] in Hp. rewrite <- F, R in Hp.
  unfold sorting in *. destruct (Query.sortBy query); cbn [map fst] in Hp.
  - split.
    + apply op_holds_GT in Hp. exact Hp.
    + exists o. split; [exact Io|]. split; [reflexivity|].
      apply (after_cursor ASC). exact Hp.
  - split.
    + apply op_holds_LT in Hp. exact Hp.
    + exists o. split; [exact Io|]. split; [reflexivity|].
      apply (after_cursor DESC). exact Hp.
Qed.

(** The token of the first page of [two_orders] under the price sort,
    with one row a page. *)
Definition first_page_token : string :=
  "MV8weDAwMDAwMDAwMDAwMDAwMDAwMDAwMDAwMDAwMDAwMDAwMDAwMDAwMDAwMDAwMDAwMDAwMDAwMDAwMDAwMDAwYWE=".

(** ** Decoding of continuation tokens *)

Definition with_sortBy (s : SortBy) (q : Query.t) : Query.t :=
  Query.mk (Query.ids q) (Query.token q) (Query.maker q) (Query.contracts q)
    (Query.status q) (Query.includePrivate q) (Query.includeMetadata q)
    (Query.includeRawData q) s (Query.continuation q) (Query.limit q).

Definition priced_orders : list Order.t :=
  [sell_order id_a 100 10; sell_order id_b 200 5].

Definition price_page_token : string :=
  "MTAwXzB4MDAwMDAwMDAwMDAwMDAwMDAwMDAwMDAwMDAwMDAwMDAwMDAwMDAwMDAwMDAwMDAwMDAwMDAwMDAwMDAwMDBhYQ==".

Definition continuation_of (r : result response) : option string :=
  match r with
  | Ok resp => continuation resp
  | Err _ => None
  end.

Lemma pagination_err query e :
  pagination query = Err e -> forall store, handler store query = Err e.
Proof.
  intros P store. unfold handler, rawResult, assemble. rewrite P. reflexivity.
Qed.

(** C6, amended: decoding a continuation token checks the decoded text
    against the one shape pattern of the handler and fails with
    InvalidContinuation when the token does not decode or the text does
    not match, before any query runs.  The check is the same under both
    sort modes: a token accepted under one is accepted under the other,
    and its first part is compared with the sort column of the current
    request. *)
Theorem continuation_shape_checked (query : Query.t) (token : string)
  (Hc : Query.continuation query = Some token) :
  (Base64.decode token = None \/
   (exists text, Base64.decode token = Some text /\
                 Regex.test continuation_shape text = false) ->
   pagination query = Err InvalidContinuation /\
   forall store, handler store query = Err InvalidContinuation) /\
  (forall page, pagination query = Ok page ->
     exists text,
       Base64.decode token = Some text /\
       Regex.Lang continuation_shape text /\
       page = [RowCmp (map fst (sorting query))
                 (match Query.sortBy query with price_sort => GT | createdAt_sort => LT end)
                 (firstn 2 (split_on "_" text))]) /\
  (forall s, (exists page, pagination query = Ok page) <->
             (exists page, pagination (with_sortBy s query) = Ok page)).
Proof.
  split; [|split].
  - intros D.
    assert (P : pagination query = Err InvalidContinuation).
    { unfold pagination, splitContinuation. rewrite Hc.
      destruct D as [-> | (text & -> & ->)]; reflexivity. }
    split; [exact P | apply pagination_err; exact P].
  - intros page P. apply pagination_inv in P.
    destruct P as [[N _] | (token' & parts & T & S & ->)]; [congruence|].
    rewrite Hc in T. inversion T; subst token'; clear T.
    unfold splitContinuation in S.
    destruct (Base64.decode token) as [text|]; [|discriminate].
    destruct (Regex.test continuation_shape text) eqn:M; [|discriminate].
    inversion S; subst parts. exists text.
    split; [reflexivity|]. split; [apply Regex.test_sound; exact M | reflexivity].
  - intros s. unfold pagination, with_sortBy. cbn [Query.continuation Query.sortBy].
    rewrite Hc.
    destruct (splitContinuation token continuation_shape) as [parts|e]; simpl.
    + destruct (Query.sortBy query), s; split; intros _; eexists; reflexivity.
    + split; intros [page P]; discriminate.
Qed.

(** ** Tokens the handler emits *)

Lemma lang_star_class p s :
  all_chars p s = true -> Regex.Lang (Regex.Star (Regex.Class p)) s.
Proof.
  induction s as [|c s IH]; simpl; intros H.
  - constructor.
  - apply andb_true_iff in H. destruct H as [Hc Hs].
    change (String c s) with (String c "" ++ s).
    constructor; [constructor; exact Hc | apply IH; exact Hs].
Qed.

Lemma lang_plus_class p s :
  nonempty s = true -> all_chars p s = true ->
  Regex.Lang (Regex.plus (Regex.Class p)) s.
Proof.
  destruct s as [|c s]; simpl; intros N H; [discriminate|].
  apply andb_true_iff in H. destruct H as [Hc Hs].
  change (String c s) with (String c "" ++ s).
  constructor; [constructor; exact Hc | apply lang_star_class; exact Hs].
Qed.

Lemma lang_lit s : Regex.Lang (Regex.lit s) s.
Proof.
  induction s as [|c s IH]; simpl.
  - constructor.
  - change (String c s) with (String c "" ++ s).
    constructor; [constructor; apply Ascii.eqb_refl | exact IH].
Qed.

Lemma lang_rep_class p n s :
  String.length s = n -> all_chars p s = true ->
  Regex.Lang (Regex.rep n (Regex.Class p)) s.
Proof.
  revert s. induction n as [|n IH]; intros s L H.
  - destruct s; [constructor | discriminate].
  - destruct s as [|c s]; [discriminate|]. simpl in L, H.
    apply andb_true_iff in H. destruct H as [Hc Hs].
    change (String c s) with (String c "" ++ s).
    constructor; [constructor; exact Hc | apply IH; [lia | exact Hs]].
Qed.

Definition not_underscore (c : ascii) : bool := negb (Ascii.eqb c "_").

Lemma all_chars_impl (p q : ascii -> bool) s :
  (forall c, p c = true -> q c = true) -> all_chars p s = true -> all_chars q s = true.
Proof.
  intros I. induction s as [|c s IH]; simpl; [reflexivity|].
  intros H. apply andb_true_iff in H. destruct H as [Hc Hs].
  rewrite (I c Hc), (IH Hs). reflexivity.
Qed.

Lemma is_hex_not_underscore c : is_hex c = true -> not_underscore c = true.
Proof.
  unfold is_hex, not_underscore. intros H.
  destruct (Ascii.eqb c "_") eqn:E; [|reflexivity].
  apply Ascii.eqb_eq in E. subst c. discriminate H.
Qed.

Lemma split_on_none s :
  all_chars not_underscore s = true -> split_on "_" s = [s].
Proof.
  induction s as [|c s IH]; simpl; [reflexivity|].
  intros H. apply andb_true_iff in H. destruct H as [Hc Hs].
  unfold not_underscore in Hc. apply negb_true_iff in Hc. rewrite Hc.
  rewrite (IH Hs). reflexivity.
Qed.

Lemma split_on_pair s1 s2 :
  all_chars not_underscore s1 = true -> all_chars not_underscore s2 = true ->
  split_on "_" (s1 ++ "_" ++ s2) = [s1; s2].
Proof.
  intros H1 H2. induction s1 as [|c s1 IH]; simpl.
  - rewrite (split_on_none _ H2). reflexivity.
  - simpl in H1. apply andb_true_iff in H1. destruct H1 as [Hc Hs].
    unfold not_underscore in Hc. apply negb_true_iff in Hc. rewrite Hc.
    simpl in IH. rewrite (IH Hs). reflexivity.
Qed.

(** The text of a value that is not negative: digits, and after a point
    as many digits as its scale. *)
Lemma show_nonnegative (a : Numeric.numeric) :
  0 <= Numeric.unscaled a ->
  exists ip fp,
    Numeric.show a = ip ++ fp /\
    Numeric.digit_string ip = true /\
    (fp = "" \/ exists f, fp = "." ++ f /\ Numeric.digit_string f = true).
Proof.
  intros H. unfold Numeric.show.
  destruct (Numeric.unscaled a <? 0) eqn:N; [apply Z.ltb_lt in N; lia|].
  cbn [append].
  eexists. eexists. split; [reflexivity|].
  split; [apply Numeric.int_text_digits|].
  destruct (Numeric.scale a) as [|n] eqn:S; [left; reflexivity|].
  right. eexists. split; [reflexivity|].
  unfold Numeric.digit_string. rewrite Numeric.frac_text_digits, andb_true_r.
  pose proof (Numeric.frac_text_length (Datatypes.S n)
                (Z.abs (Numeric.unscaled a) mod Numeric.pow10 (Datatypes.S n))) as L.
  destruct (Numeric.frac_text (Datatypes.S n) _); [discriminate L | reflexivity].
Qed.

(** An order id that is a 32 byte hash: [0x] and 64 hexadecimal digits
    in lower case. *)
Definition hash_id (id : string) : Prop :=
  exists h, id = "0x" ++ h /\ String.length h = 64%nat /\ all_chars is_hex h = true.

Lemma digit_string_inv s :
  Numeric.digit_string s = true -> nonempty s = true /\ all_chars is_digit s = true.
Proof.
  unfold Numeric.digit_string. intros H. apply andb_true_iff in H. exact H.
Qed.

Lemma is_digit_not_underscore c : is_digit c = true -> not_underscore c = true.
Proof.
  intros H. apply is_hex_not_underscore. apply is_digit_is_hex. exact H.
Qed.

Lemma token_text_shape (a : Numeric.numeric) (id : string) :
  0 <= Numeric.unscaled a -> hash_id id ->
  Regex.Lang continuation_shape (Numeric.show a ++ "_" ++ id) /\
  split_on "_" (Numeric.show a ++ "_" ++ id) = [Numeric.show a; id].
Proof.
  intros Ha (h & -> & Lh & Hh).
  destruct (show_nonnegative a Ha) as (ip & fp & -> & Dip & Dfp).
  apply digit_string_inv in Dip. destruct Dip as [Nip Aip].
  split.
  - rewrite app_assoc_s. unfold continuation_shape.
    constructor; [apply lang_plus_class; assumption|].
    constructor.
    + destruct Dfp as [-> | (f & -> & Df)].
      * apply Regex.L_alt_r. constructor.
      * apply digit_string_inv in Df. destruct Df as [Nf Af].
        apply Regex.L_alt_l.
        change ("." ++ f) with (String "." "" ++ f).
        constructor; [constructor; reflexivity | apply lang_plus_class; assumption].
    + change ("_" ++ "0x" ++ h) with ("_0x" ++ h).
      constructor; [apply lang_lit | apply lang_rep_class; assumption].
  - apply split_on_pair.
    + rewrite all_chars_app.
      rewrite (all_chars_impl _ _ _ is_digit_not_underscore Aip). simpl.
      destruct Dfp as [-> | (f & -> & Df)]; [reflexivity|].
      apply digit_string_inv in Df. destruct Df as [_ Af].
      simpl. apply (all_chars_impl _ _ _ is_digit_not_underscore Af).
    + simpl. apply (all_chars_impl _ _ _ is_hex_not_underscore Hh).
Qed.

Definition plain_id_order : Order.t := sell_order "order-1" 1 10.

(** C10, amended: when the last row of a full page has an id that is a
    32 byte hash ([0x] and 64 lower case hexadecimal digits) and a sort
    value that is not negative, the token emitted for it, under either
    sort mode, decodes to a text of the expected shape and splits back
    into the text of that sort value and that id; the next request that
    presents it is not rejected as malformed. *)
Theorem emitted_token_accepted (query : Query.t) (rows : list Row.t)
  (r : Row.t) (token : string)
  (Hn : next_continuation query rows = Ok (Some token))
  (Hl : last_row rows = Some r)
  (Hid : hash_id (Row.id r))
  (Hk : 0 <= Numeric.unscaled (sort_value query r)) :
  (exists text, Base64.decode token = Some text /\
                Regex.test continuation_shape text = true) /\
  splitContinuation token continuation_shape
    = Ok [Numeric.show (sort_value query r); Row.id r] /\
  (forall next, Query.continuation next = Some token ->
                exists page, pagination next = Ok page).
Proof.
  unfold next_continuation in Hn. rewrite Hl in Hn.
  destruct (Z.of_nat (length rows) =? clamped_limit query); [|discriminate].
  assert (E : token = buildContinuation
                       (Numeric.show (sort_value query r) ++ "_" ++ Row.id r))
    by (inversion Hn; reflexivity).
  clear Hn. subst token.
  destruct (token_text_shape _ _ Hk Hid) as [L S].
  apply Regex.test_complete in L.
  assert (D : splitContinuation
                (buildContinuation (Numeric.show (sort_value query r) ++ "_" ++ Row.id r))
                continuation_shape
              = Ok [Numeric.show (sort_value query r); Row.id r]).
  { unfold splitContinuation, buildContinuation.
    rewrite Base64.decode_encode, L, S. reflexivity. }
  split; [|split].
  - eexists. split; [apply Base64.decode_encode | exact L].
  - exact D.
  - intros next C. unfold pagination. rewrite C. cbn beta iota. rewrite D. cbn [bind].
    destruct (Query.sortBy next); eexists; reflexivity.
Qed.

(** * Further properties of the handler *)

(** ** Comparisons that are total orders *)

Section Comparison.

Variable A : Type.

Record total_order (cmp : A -> A -> comparison) : Prop := mk_total_order {
  cmp_antisym : forall a b, cmp a b = CompOpp (cmp b a);
  cmp_trans : forall a b c, cmp a b = Lt -> cmp b c = Lt -> cmp a c = Lt;
  cmp_compat : forall a b c, cmp a b = Eq -> cmp a c = cmp b c
}.

Variable cmp : A -> A -> comparison.
Hypothesis O : total_order cmp.

Lemma cmp_refl a : cmp a a = Eq.
Proof.
  pose proof (cmp_antisym cmp O a a) as H.
  destruct (cmp a a); simpl in H; try discriminate; reflexivity.
Qed.

Lemma cmp_compat_r a b c : cmp a b = Eq -> cmp c a = cmp c b.
Proof.
  intros H. rewrite (cmp_antisym cmp O c a), (cmp_antisym cmp O c b).
  f_equal. apply (cmp_compat cmp O). exact H.
Qed.

Lemma cmp_gt_lt a b : cmp a b = Gt <-> cmp b a = Lt.
Proof.
  rewrite (cmp_antisym cmp O a b). destruct (cmp b a); simpl; split;
    intros H; try discriminate; reflexivity.
Qed.

Lemma cmp_eq_sym a b : cmp a b = Eq -> cmp b a = Eq.
Proof.
  rewrite (cmp_antisym cmp O a b). destruct (cmp b a); simpl;
    intros H; try discriminate; reflexivity.
Qed.

Lemma cmp_trans_gt a b c : cmp a b = Gt -> cmp b c = Gt -> cmp a c = Gt.
Proof.
  rewrite !cmp_gt_lt. intros H1 H2. exact (cmp_trans cmp O c b a H2 H1).
Qed.

Lemma cmp_le_lt_trans a b c : cmp a b <> Gt -> cmp b c = Lt -> cmp a c = Lt.
Proof.
  intros H1 H2. destruct (cmp a b) eqn:E.
  - rewrite (cmp_compat cmp O a b c E). exact H2.
  - exact (cmp_trans cmp O a b c E H2).
  - contradiction.
Qed.

Lemma cmp_lt_le_trans a b c : cmp a b = Lt -> cmp b c <> Gt -> cmp a c = Lt.
Proof.
  intros H1 H2. destruct (cmp b c) eqn:E.
  - rewrite <- (cmp_compat_r b c a E). exact H1.
  - exact (cmp_trans cmp O a b c H1 E).
  - contradiction.
Qed.

Lemma cmp_le_trans a b c : cmp a b <> Gt -> cmp b c <> Gt -> cmp a c <> Gt.
Proof.
  intros H1 H2. destruct (cmp b c) eqn:E.
  - rewrite <- (cmp_compat_r b c a E). exact H1.
  - rewrite (cmp_le_lt_trans a b c H1 E). discriminate.
  - contradiction.
Qed.

End Comparison.

Arguments cmp_antisym {A cmp} _ _ _.
Arguments cmp_trans {A cmp} _ _ _ _ _ _.
Arguments cmp_compat {A cmp} _ _ _ _ _.

Lemma total_order_ext (A : Type) (f g : A -> A -> comparison) :
  (forall a b, f a b = g a b) -> total_order A f -> total_order A g.
Proof.
  intros E [H1 H2 H3]. constructor.
  - intros a b. rewrite <- !E. apply H1.
  - intros a b c. rewrite <- !E. apply H2.
  - intros a b c. rewrite <- !E. apply H3.
Qed.

Lemma total_order_on (A B : Type) (f : A -> B) (cmp : B -> B -> comparison) :
  total_order B cmp -> total_order A (fun a b => cmp (f a) (f b)).
Proof.
  intros [H1 H2 H3]. constructor.
  - intros a b. apply H1.
  - intros a b c. apply H2.
  - intros a b c. apply H3.
Qed.

Definition directed (d : direction) (c : comparison) : comparison :=
  match d with
  | ASC => c
  | DESC => CompOpp c
  end.

(** A comparison refined by a second one where the first ties, the first
    being read in a direction. *)
Definition lex (A : Type) (d : direction) (first rest : A -> A -> comparison)
  (a b : A) : comparison :=
  match first a b with
  | Eq => rest a b
  | c => directed d c
  end.

Lemma lex_eq_inv (A : Type) d (first rest : A -> A -> comparison) a b :
  lex A d first rest a b = Eq -> first a b = Eq /\ rest a b = Eq.
Proof.
  unfold lex. destruct (first a b), d; simpl; intros H; try discriminate; auto.
Qed.

Lemma lex_total_order (A : Type) d (first rest : A -> A -> comparison) :
  total_order A first -> total_order A rest ->
  total_order A (lex A d first rest).
Proof.
  intros F R. constructor.
  - intros a b. unfold lex.
    rewrite (cmp_antisym F a b), (cmp_antisym R a b).
    destruct (first b a), d; reflexivity.
  - intros a b c H1 H2. unfold lex in *.
    destruct (first a b) eqn:Eab.
    + rewrite (cmp_compat F a b c Eab).
      destruct (first b c) eqn:Ebc; [exact (cmp_trans R a b c H1 H2) | exact H2 | exact H2].
    + destruct (first b c) eqn:Ebc.
      * rewrite <- (cmp_compat_r A first F b c a Ebc), Eab. exact H1.
      * rewrite (cmp_trans F a b c Eab Ebc). exact H1.
      * destruct d; discriminate.
    + destruct (first b c) eqn:Ebc.
      * rewrite <- (cmp_compat_r A first F b c a Ebc), Eab. exact H1.
      * destruct d; discriminate.
      * rewrite (cmp_trans_gt A first F a b c Eab Ebc). exact H1.
  - intros a b c H. apply lex_eq_inv in H. destruct H as [Hf Hr].
    unfold lex. rewrite (cmp_compat F a b c Hf), (cmp_compat R a b c Hr).
    reflexivity.
Qed.

Lemma const_total_order (A : Type) : total_order A (fun _ _ => Eq).
Proof.
  constructor; intros; try reflexivity; discriminate.
Qed.

(** *** The comparison of values *)

Lemma numeric_compare_trans a b c :
  Numeric.compare a b = Lt -> Numeric.compare b c = Lt -> Numeric.compare a c = Lt.
Proof.
  unfold Numeric.compare. rewrite !Z.compare_lt_iff.
  pose proof (pow10_pos (Numeric.scale a)) as Pa.
  pose proof (pow10_pos (Numeric.scale b)) as Pb.
  pose proof (pow10_pos (Numeric.scale c)) as Pc.
  intros H1 H2.
  apply (Z.mul_lt_mono_pos_r (Numeric.pow10 (Numeric.scale b))); [assumption|].
  apply Z.lt_trans with
    (Numeric.unscaled b * Numeric.pow10 (Numeric.scale a) * Numeric.pow10 (Numeric.scale c)).
  - replace (Numeric.unscaled a * Numeric.pow10 (Numeric.scale c) * Numeric.pow10 (Numeric.scale b))
      with (Numeric.unscaled a * Numeric.pow10 (Numeric.scale b) * Numeric.pow10 (Numeric.scale c))
      by ring.
    apply Z.mul_lt_mono_pos_r; assumption.
  - replace (Numeric.unscaled b * Numeric.pow10 (Numeric.scale a) * Numeric.pow10 (Numeric.scale c))
      with (Numeric.unscaled b * Numeric.pow10 (Numeric.scale c) * Numeric.pow10 (Numeric.scale a))
      by ring.
    replace (Numeric.unscaled c * Numeric.pow10 (Numeric.scale a) * Numeric.pow10 (Numeric.scale b))
      with (Numeric.unscaled c * Numeric.pow10 (Numeric.scale b) * Numeric.pow10 (Numeric.scale a))
      by ring.
    apply Z.mul_lt_mono_pos_r; assumption.
Qed.

Lemma numeric_compare_compat a b c :
  Numeric.compare a b = Eq -> Numeric.compare a c = Numeric.compare b c.
Proof.
  unfold Numeric.compare. rewrite Z.compare_eq_iff.
  pose proof (pow10_pos (Numeric.scale a)) as Pa.
  pose proof (pow10_pos (Numeric.scale b)) as Pb.
  pose proof (pow10_pos (Numeric.scale c)) as Pc.
  generalize dependent (Numeric.pow10 (Numeric.scale a)).
  generalize dependent (Numeric.pow10 (Numeric.scale b)).
  generalize dependent (Numeric.pow10 (Numeric.scale c)).
  generalize (Numeric.unscaled a) (Numeric.unscaled b) (Numeric.unscaled c).
  intros ua ub uc pc Pc pb Pb pa Pa H.
  assert (E : (ua * pc - uc * pa) * pb = pa * (ub * pc - uc * pb)).
  { transitivity (ua * pb * pc - uc * pa * pb); [ring | rewrite H; ring]. }
  destruct (Z.compare_spec (ua * pc) (uc * pa));
    destruct (Z.compare_spec (ub * pc) (uc * pb)); try reflexivity; exfalso; nia.
Qed.

Lemma string_compare_trans a b c :
  String.compare a b = Lt -> String.compare b c = Lt -> String.compare a c = Lt.
Proof.
  change String.compare with OrderedTypeEx.String_as_OT.cmp.
  rewrite !OrderedTypeEx.String_as_OT.cmp_lt.
  apply OrderedTypeEx.String_as_OT.lt_trans.
Qed.

Lemma compare_value_total : total_order value compare_value.
Proof.
  constructor.
  - apply compare_value_antisym.
  - intros [x|x] [y|y] [z|z]; simpl; intros H1 H2; try discriminate; try reflexivity.
    + exact (numeric_compare_trans x y z H1 H2).
    + exact (string_compare_trans x y z H1 H2).
  - intros [x|x] [y|y] [z|z]; simpl; intros H; try discriminate; try reflexivity.
    + exact (numeric_compare_compat x y z H).
    + apply String.compare_eq_iff in H. subst y. reflexivity.
Qed.

(** The order of an [ORDER BY] on the orders of the store. *)
Definition compare_orders (ob : list (column * direction)) (a b : Order.t) : comparison :=
  compare_keys ob (sort_key ob a) (sort_key ob b).

Lemma compare_orders_cons c d ob a b :
  compare_orders ((c, d) :: ob) a b =
  lex Order.t d (fun x y => compare_value (column_value c x) (column_value c y))
    (compare_orders ob) a b.
Proof.
  unfold compare_orders, lex, directed. simpl.
  destruct (compare_value (column_value c a) (column_value c b)); reflexivity.
Qed.

Lemma compare_orders_total ob : total_order Order.t (compare_orders ob).
Proof.
  induction ob as [|[c d] ob IH].
  - apply const_total_order.
  - apply (total_order_ext _ _ _ (fun a b => eq_sym (compare_orders_cons c d ob a b))).
    apply lex_total_order; [|exact IH].
    apply (total_order_on Order.t value (column_value c)). apply compare_value_total.
Qed.

(** ** The order of a page *)

Lemma before_iff ob a b : before ob a b = true <-> compare_orders ob a b <> Gt.
Proof.
  unfold before, compare_orders.
  destruct (compare_keys ob (sort_key ob a) (sort_key ob b)); split; intros H;
    try reflexivity; try discriminate. contradiction.
Qed.

Lemma insert_perm ob x l : Permutation (insert ob x l) (x :: l).
Proof.
  induction l as [|y l IH]; simpl; [reflexivity|].
  destruct (before ob x y); [reflexivity|].
  rewrite IH. apply perm_swap.
Qed.

Lemma sort_perm ob l : Permutation (sort ob l) l.
Proof.
  unfold sort. induction l as [|x l IH]; simpl; [reflexivity|].
  rewrite insert_perm. constructor. exact IH.
Qed.

Definition not_after (ob : list (column * direction)) (a b : Order.t) : Prop :=
  compare_orders ob a b <> Gt.

Definition strictly_before (ob : list (column * direction)) (a b : Order.t) : Prop :=
  compare_orders ob a b = Lt.

Lemma sort_strongly_sorted ob l : StronglySorted (not_after ob) (sort ob l).
Proof.
  apply Sorted_StronglySorted.
  - intros a b c. unfold not_after.
    apply (cmp_le_trans Order.t (compare_orders ob) (compare_orders_total ob)).
  - pose proof (sort_sorted ob l) as S.
    induction S as [|a l' S IH Hd]; constructor; [exact IH|].
    destruct Hd as [|b l'' Hd]; constructor.
    apply before_iff. exact Hd.
Qed.

Lemma compare_orders_eq_column ob a b :
  compare_orders ob a b = Eq ->
  forall c d, In (c, d) ob ->
    compare_value (column_value c a) (column_value c b) = Eq.
Proof.
  induction ob as [|[c0 d0] ob IH]; intros H c d I; [contradiction|].
  rewrite compare_orders_cons in H. apply lex_eq_inv in H. destruct H as [H1 H2].
  destruct I as [I | I].
  - inversion I; subst. exact H1.
  - exact (IH H2 c d I).
Qed.

Lemma sorting_has_id query : exists d, In (col_id, d) (sorting query).
Proof.
  unfold sorting. destruct (Query.sortBy query); eexists; right; left; reflexivity.
Qed.

(** Two orders that tie under the sort of a query have the same id. *)
Lemma tie_same_id query a b :
  compare_orders (sorting query) a b = Eq -> Order.id a = Order.id b.
Proof.
  intros H. destruct (sorting_has_id query) as [d I].
  pose proof (compare_orders_eq_column _ a b H col_id d I) as E.
  simpl in E. apply String.compare_eq_iff in E. exact E.
Qed.

Lemma strongly_sorted_strict query l :
  NoDup (map Order.id l) ->
  StronglySorted (not_after (sorting query)) l ->
  StronglySorted (strictly_before (sorting query)) l.
Proof.
  intros N S. induction S as [|a l S IH F]; constructor.
  - apply IH. inversion N; assumption.
  - inversion N as [|? ? Na Nl]; subst.
    rewrite Forall_forall in *. intros b Ib.
    specialize (F b Ib). unfold not_after in F. unfold strictly_before.
    destruct (compare_orders (sorting query) a b) eqn:E;
      [|reflexivity | contradiction].
    exfalso. apply Na. apply tie_same_id in E. rewrite E.
    apply in_map. exact Ib.
Qed.

Lemma filter_ids_nodup (f : Order.t -> bool) l :
  NoDup (map Order.id l) -> NoDup (map Order.id (filter f l)).
Proof.
  induction l as [|x l IH]; simpl; intros N; [constructor|].
  inversion N as [|? ? Nx Nl]; subst.
  destruct (f x); simpl; [|apply IH; exact Nl].
  constructor; [|apply IH; exact Nl].
  intros I. apply Nx. apply in_map_iff in I. destruct I as (y & E & Iy).
  apply filter_In in Iy. rewrite <- E. apply in_map. apply Iy.
Qed.

Lemma sort_ids_nodup ob l :
  NoDup (map Order.id l) -> NoDup (map Order.id (sort ob l)).
Proof.
  intros N. apply (Permutation_NoDup (l := map Order.id l)); [|exact N].
  apply Permutation_map. symmetry. apply sort_perm.
Qed.

Lemma strongly_sorted_app_l {A : Type} (R : A -> A -> Prop) (l1 l2 : list A) :
  StronglySorted R (l1 ++ l2) -> StronglySorted R l1.
Proof.
  induction l1 as [|x l1 IH]; simpl; intros S; [constructor|].
  inversion S as [|? ? S' F]; subst. constructor; [apply IH; exact S'|].
  rewrite Forall_forall in *. intros y I. apply F. apply in_or_app. left. exact I.
Qed.

Lemma strongly_sorted_app_r {A : Type} (R : A -> A -> Prop) (l1 l2 : list A) :
  StronglySorted R (l1 ++ l2) -> StronglySorted R l2.
Proof.
  induction l1 as [|x l1 IH]; simpl; intros S; [exact S|].
  inversion S; subst. apply IH. assumption.
Qed.

Lemma strongly_sorted_firstn {A : Type} (R : A -> A -> Prop) (n : nat) (l : list A) :
  StronglySorted R l -> StronglySorted R (firstn n l).
Proof.
  intros S. rewrite <- (firstn_skipn n l) in S.
  exact (strongly_sorted_app_l R _ _ S).
Qed.

Lemma strongly_sorted_skipn {A : Type} (R : A -> A -> Prop) (n : nat) (l : list A) :
  StronglySorted R l -> StronglySorted R (skipn n l).
Proof.
  intros S. rewrite <- (firstn_skipn n l) in S.
  exact (strongly_sorted_app_r R _ _ S).
Qed.

Lemma strongly_sorted_map {A B : Type} (f : A -> B) (R : A -> A -> Prop)
  (R' : B -> B -> Prop) (l : list A) :
  (forall a b, R a b -> R' (f a) (f b)) ->
  StronglySorted R l -> StronglySorted R' (map f l).
Proof.
  intros I S. induction S as [|a l S IH F]; simpl; constructor; [exact IH|].
  rewrite Forall_forall in *. intros y Iy.
  apply in_map_iff in Iy. destruct Iy as (b & <- & Ib). apply I. apply F. exact Ib.
Qed.

(** The order of two rows of a page, on the fields the sort reads. *)
Definition row_order (query : Query.t) (a b : Row.t) : comparison :=
  match Query.sortBy query with
  | price_sort =>
      compare_tuple [VNum (Row.price a); VText (Row.id a)]
                    [VNum (Row.price b); VText (Row.id b)]
  | createdAt_sort =>
      compare_tuple [VNum (Row.created_at b); VText (Row.id b)]
                    [VNum (Row.created_at a); VText (Row.id a)]
  end.

Lemma numeric_compare_antisym a b :
  Numeric.compare a b = CompOpp (Numeric.compare b a).
Proof.
  unfold Numeric.compare. apply Z.compare_antisym.
Qed.

Lemma row_order_select query a b :
  row_order query (select a) (select b) = compare_orders (sorting query) a b.
Proof.
  unfold row_order, compare_orders, sorting, sort_key.
  destruct (Query.sortBy query); simpl.
  - destruct (Numeric.compare (Order.price a) (Order.price b));
      destruct (String.compare (Order.id a) (Order.id b)); reflexivity.
  - rewrite (numeric_compare_antisym (Order.created_at b)).
    rewrite (String.compare_antisym (Order.id b)).
    destruct (Numeric.compare (Order.created_at a) (Order.created_at b));
      destruct (String.compare (Order.id a) (Order.id b)); reflexivity.
Qed.

Lemma rawResult_rows store query rows :
  rawResult store query = Ok rows ->
  exists stmt, assemble query = Ok stmt /\
    order_by stmt = sorting query /\ limit_ stmt = clamped_limit query /\
    0 <= clamped_limit query /\
    rows = map select (firstn (Z.to_nat (clamped_limit query))
                         (sort (sorting query) (matching stmt store))).
Proof.
  intros H. apply rawResult_inv in H. destruct H as (stmt & A & _ & L & R).
  pose proof A as A'. apply assemble_inv in A'. destruct A' as (page & _ & E).
  exists stmt. rewrite E in *. cbn [order_by limit_] in *. auto.
Qed.

(** X1: A page comes in the order of the sort: of two rows, the earlier has
    the smaller (price, id) under the price sort and the greater
    (created_at, id) under the createdAt sort.  When the ids of the
    store are distinct the order is strict and no id comes twice. *)
Theorem page_in_sort_order (store : list Order.t) (query : Query.t)
  (rows : list Row.t) (H : rawResult store query = Ok rows) :
  StronglySorted (fun a b => row_order query a b <> Gt) rows /\
  (NoDup (map Order.id store) ->
   StronglySorted (fun a b => row_order query a b = Lt) rows /\
   NoDup (map Row.id rows)).
Proof.
  apply rawResult_rows in H. destruct H as (stmt & _ & _ & _ & _ & ->).
  split.
  - apply (strongly_sorted_map select (not_after (sorting query))).
    + intros a b. rewrite row_order_select. auto.
    + apply strongly_sorted_firstn. apply sort_strongly_sorted.
  - intros N.
    assert (Nm : NoDup (map Order.id (sort (sorting query) (matching stmt store))))
      by (apply sort_ids_nodup, filter_ids_nodup, N).
    split.
    + apply (strongly_sorted_map select (strictly_before (sorting query))).
      * intros a b. rewrite row_order_select. auto.
      * apply strongly_sorted_firstn. apply strongly_sorted_strict; [exact Nm|].
        apply sort_strongly_sorted.
    + rewrite map_map. cbn [select Row.id].
      rewrite <- (firstn_skipn (Z.to_nat (clamped_limit query))
                    (sort (sorting query) (matching stmt store))) in Nm.
      rewrite map_app in Nm. apply NoDup_app_remove_r in Nm. exact Nm.
Qed.

(** ** What a page holds *)

Lemma sort_length ob l : length (sort ob l) = length l.
Proof.
  apply Permutation_length. apply sort_perm.
Qed.

(** X2: The page holds as many rows as the clamped limit allows, or all the
    matching orders when there are fewer. *)
Theorem page_length (store : list Order.t) (query : Query.t) (rows : list Row.t)
  (H : rawResult store query = Ok rows) :
  exists stmt,
    assemble query = Ok stmt /\
    length rows = Nat.min (Z.to_nat (Z.min (Query.limit query) 100))
                    (length (matching stmt store)).
Proof.
  apply rawResult_rows in H. destruct H as (stmt & A & _ & _ & _ & ->).
  exists stmt. split; [exact A|].
  rewrite length_map, length_firstn, sort_length. reflexivity.
Qed.


(** X3: A response without a continuation token is the end of the scan: it
    holds every order of the store on which the conditions of the
    statement hold. *)
Theorem no_continuation_complete (store : list Order.t) (query : Query.t)
  (resp : response) (H : handler store query = Ok resp)
  (Hc : continuation resp = None) :
  exists stmt,
    assemble query = Ok stmt /\
    forall o, In o store ->
      (forall c, In c (where_ stmt) -> holds c o = true) ->
      In (project (select o)) (orders resp).
Proof.
  apply handler_inv in H. destruct H as (rows & c & R & N & ->).
  cbn [continuation orders] in *. subst c.
  apply rawResult_rows in R. destruct R as (stmt & A & _ & _ & L & ->).
  exists stmt. split; [exact A|].
  intros o Io Ho.
  unfold next_continuation in N. rewrite length_map in N.
  destruct (Z.of_nat (length (firstn (Z.to_nat (clamped_limit query))
                                (sort (sorting query) (matching stmt store))))
            =? clamped_limit query) eqn:E.
  - destruct (last_row _); discriminate.
  - apply Z.eqb_neq in E. rewrite length_firstn in E.
    rewrite firstn_all2 by lia.
    apply in_map, in_map. apply sort_In. unfold matching.
    apply filter_In. split; [exact Io|].
    apply forallb_forall. exact Ho.
Qed.

(** ** What the filters select *)

Lemma existsb_eqb_In (x : string) (l : list string) :
  existsb (String.eqb x) l = true -> In x l.
Proof.
  intros H. apply existsb_exists in H. destruct H as (y & I & E).
  apply String.eqb_eq in E. subst y. exact I.
Qed.

Ltac in_filters H :=
  unfold filters, when_present; rewrite ?H;
  repeat match goal with
         | |- context [match ?x with Some _ => _ | None => _ end] => destruct x
         | |- context [if ?x then _ else _] => destruct x
         end;
  simpl; auto 20.

Lemma rawResult_sound store query rows r :
  rawResult store query = Ok rows -> In r rows ->
  exists o, In o store /\ r = select o /\
            forall c, In c (filters query) -> holds c o = true.
Proof.
  unfold rawResult. destruct (assemble query) as [stmt|e] eqn:A; simpl; [|discriminate].
  intros H I. destruct (manyOrNone_sound _ _ _ _ H I) as (o & Io & E & Hh).
  exists o. split; [exact Io|]. split; [exact E|].
  intros c Ic. apply Hh.
  apply assemble_inv in A. destruct A as (page & _ & ->).
  cbn [where_]. apply in_or_app. left. exact Ic.
Qed.

(** X4: Every row of a page is a sell order and passes each filter of the
    request: its id is among the ids asked for, its token set is the
    single-token set of the token, its contract is among the contracts,
    its maker is the maker, and unless private orders are included its
    taker is null or the zero address. *)
Theorem page_rows_pass_filters (store : list Order.t) (query : Query.t)
  (rows : list Row.t) (r : Row.t)
  (H : rawResult store query = Ok rows) (Hr : In r rows) :
  Row.side r = "sell" /\
  (forall ids, Query.ids query = Some ids -> In (Row.id r) (as_list ids)) /\
  (forall token, Query.token query = Some token ->
                 Row.token_set_id r = "token:" ++ token) /\
  (forall contracts, Query.contracts query = Some contracts ->
                     In (Row.contract r) (as_list contracts)) /\
  (forall maker, Query.maker query = Some maker -> Row.maker r = maker) /\
  (Query.includePrivate query = false ->
   Row.taker r = None \/ Row.taker r = Some zero_address).
Proof.
  destruct (rawResult_sound _ _ _ _ H Hr) as (o & _ & -> & Hh).
  cbn [select Row.side Row.id Row.token_set_id Row.contract Row.maker Row.taker].
  split; [|split; [|split; [|split; [|split]]]].
  - assert (I : In SideSell (filters query)) by (left; reflexivity).
    apply Hh in I. simpl in I. apply String.eqb_eq in I. exact I.
  - intros ids E. destruct ids as [s | l].
    + assert (I : In (IdEq s) (filters query)) by in_filters E.
      apply Hh in I. simpl in I. apply String.eqb_eq in I. left. auto.
    + assert (I : In (IdIn l) (filters query)) by in_filters E.
      apply Hh in I. simpl in I. apply existsb_eqb_In. exact I.
  - intros token E.
    assert (I : In (TokenSetEq ("token:" ++ token)) (filters query)) by in_filters E.
    apply Hh in I. cbn [holds] in I. apply String.eqb_eq in I. exact I.
  - intros contracts E.
    assert (I : In (ContractIn (as_list contracts)) (filters query)) by in_filters E.
    apply Hh in I. simpl in I. apply existsb_eqb_In. exact I.
  - intros maker E.
    assert (I : In (MakerEq maker) (filters query)) by in_filters E.
    apply Hh in I. simpl in I. apply String.eqb_eq in I. exact I.
  - intros E.
    assert (I : In TakerPublic (filters query)) by in_filters E.
    apply Hh in I. simpl in I.
    destruct (Order.taker o) as [t|]; [|left; reflexivity].
    apply String.eqb_eq in I. subst t. right. reflexivity.
Qed.

(** ** Status of the rows returned *)

Lemma in_status_filter query : In (orderStatusFilter query) (filters query).
Proof.
  unfold filters. repeat (apply in_or_app; right). left. reflexivity.
Qed.

(** X5: Without the inactive variant a page holds active rows only.  With
    maker and status inactive it holds rows that are out of balance or
    fillable but not approved: they are labelled inactive, except that a
    fillable row whose approval flag is neither approved nor no-approval
    is labelled active. *)
Theorem page_status (store : list Order.t) (query : Query.t)
  (rows : list Row.t) (r : Row.t)
  (H : rawResult store query = Ok rows) (Hr : In r rows) :
  (~ (Query.maker query <> None /\ Query.status query = Some inactive) ->
   Row.status r = "active") /\
  (Query.maker query <> None /\ Query.status query = Some inactive ->
   exists o, In o store /\ r = select o /\
     (Row.status r = "inactive" \/
      (Row.status r = "active" /\
       Order.fillability_status o = "fillable" /\
       Order.approval_status o <> "approved" /\
       Order.approval_status o <> "no-approval"))).
Proof.
  destruct (rawResult_sound _ _ _ _ H Hr) as (o & Io & -> & Hh).
  pose proof (Hh _ (in_status_filter query)) as S.
  cbn [select Row.status]. unfold derived_status, status_when, status_else.
  cbn [eval_case status_flag].
  split.
  - intros N.
    assert (E : orderStatusFilter query = FillableApproved).
    { unfold orderStatusFilter. destruct (Query.maker query) as [m|]; [|reflexivity].
      destruct (Query.status query) as [[|]|]; try reflexivity.
      exfalso. apply N. split; [discriminate | reflexivity]. }
    rewrite E in S. simpl in S. apply andb_true_iff in S. destruct S as [S1 S2].
    apply String.eqb_eq in S1, S2. rewrite S1, S2. reflexivity.
  - intros [M St].
    assert (E : orderStatusFilter query = PotentiallyValid).
    { unfold orderStatusFilter. rewrite St.
      destruct (Query.maker query); [reflexivity | contradiction]. }
    rewrite E in S. simpl in S.
    exists o. split; [exact Io|]. split; [reflexivity|].
    apply orb_true_iff in S. destruct S as [S | S].
    + apply String.eqb_eq in S. rewrite S. left. reflexivity.
    + apply andb_true_iff in S. destruct S as [S1 S2].
      apply String.eqb_eq in S1. apply negb_true_iff in S2. rewrite S1.
      cbn [String.eqb Ascii.eqb Bool.eqb].
      destruct (String.eqb (Order.approval_status o) "no-approval") eqn:A.
      * left. reflexivity.
      * right. apply String.eqb_neq in S2, A. auto.
Qed.

Definition disabled_order : Order.t :=
  Order.mk id_a "seaport" "sell" sample_token_set sample_contract sample_maker None None
    (Numeric.of_Z 1) None 250 (Numeric.of_Z 10) "fillable" "disabled".

Definition inactive_of_maker : Query.t :=
  Query.mk None None (Some sample_maker) None (Some inactive) false false false
    createdAt_sort None 10.

(** ** Currency of the listings *)

(** X6: A listing is priced in the currency of its row, and in the native
    asset when the row has none; as every row is a sell order, the
    wrapped asset is never chosen. *)
Theorem listing_currency (store : list Order.t) (query : Query.t)
  (resp : response) (l : Listing.t)
  (H : handler store query = Ok resp) (Hl : In l (orders resp)) :
  snd (Listing.price l) <> Weth /\
  exists o, In o store /\ l = project (select o) /\
    snd (Listing.price l) =
      match Order.currency o with
      | Some c => Currency c
      | None => Eth
      end.
Proof.
  apply handler_inv in H. destruct H as (rows & c & R & _ & ->).
  cbn [orders] in Hl. apply in_map_iff in Hl. destruct Hl as (r & <- & Ir).
  destruct (rawResult_sound _ _ _ _ R Ir) as (o & Io & -> & Hh).
  assert (S : In SideSell (filters query)) by (left; reflexivity).
  apply Hh in S. simpl in S.
  assert (E : snd (Listing.price (project (select o))) =
              match Order.currency o with
              | Some c => Currency c
              | None => Eth
              end).
  { unfold project. cbn [Listing.price snd select Row.currency Row.side].
    rewrite S. reflexivity. }
  split.
  - rewrite E. destruct (Order.currency o); discriminate.
  - exists o. auto.
Qed.

(** ** Requests that are served *)

(** [ids] or [contracts] is an empty array. *)
Definition empty_list_filter (query : Query.t) : bool :=
  match Query.ids query with
  | Some (Many []) => true
  | _ => false
  end ||
  match Query.contracts query with
  | Some (Many []) => true
  | _ => false
  end.

Lemma filters_well_typed query :
  forallb well_typed (filters query) = negb (empty_list_filter query).
Proof.
  unfold filters, when_present, orderStatusFilter, empty_list_filter.
  destruct (Query.ids query) as [[s|[|x l]]|], (Query.token query),
    (Query.contracts query) as [[c|[|y m]]|], (Query.maker query),
    (Query.status query) as [[|]|], (Query.includePrivate query); reflexivity.
Qed.



Definition token_only : Raw.t :=
  Raw.mk None (Some sample_token) None None None None None None None None None.

Definition is_anchor (c : condition) : bool :=
  match c with
  | IdIn _ | IdEq _ | TokenSetEq _ | ContractIn _ | MakerEq _ => true
  | _ => false
  end.

(** X8: The statement of an accepted request always holds a clause on the
    id, the token set, the contract or the maker, and its first clause
    restricts the side to sell. *)
Theorem accepted_request_anchored (raw : Raw.t) (query : Query.t)
  (V : validate raw = Ok query) :
  existsb is_anchor (filters query) = true /\
  hd_error (filters query) = Some SideSell /\
  forall stmt, assemble query = Ok stmt ->
    existsb is_anchor (where_ stmt) = true /\
    hd_error (where_ stmt) = Some SideSell.
Proof.
  assert (A : existsb is_anchor (filters query) = true).
  { apply validate_ok_iff in V. destruct V as (_ & _ & _ & _ & O & _ & ->).
    unfold or_ids_token_contracts_maker in O.
    unfold filters, when_present, converted.
    cbn [Query.ids Query.token Query.contracts Query.maker].
    destruct (Raw.ids raw) as [[|]|], (Raw.token raw), (Raw.contracts raw),
      (Raw.maker raw); simpl in O; try discriminate; reflexivity. }
  split; [exact A|]. split; [reflexivity|].
  intros stmt S. apply assemble_inv in S. destruct S as (page & _ & ->).
  cbn [where_]. rewrite existsb_app, A. split; reflexivity.
Qed.

(** ** Reading back the text of a sort value *)

Lemma digits_val_app acc s1 s2 :
  Numeric.digits_val acc (s1 ++ s2) = Numeric.digits_val (Numeric.digits_val acc s1) s2.
Proof.
  revert acc. induction s1 as [|c s1 IH]; intros acc; simpl; [reflexivity|].
  apply IH.
Qed.

Lemma digit_char_value d :
  0 <= d <= 9 -> Z.of_N (N_of_ascii (Numeric.digit_char d)) - 48 = d.
Proof.
  intros H. unfold Numeric.digit_char.
  rewrite N_ascii_embedding by lia. lia.
Qed.

Lemma digits_val_frac_text k n acc :
  Numeric.digits_val acc (Numeric.frac_text k n) = acc * 10 ^ Z.of_nat k + n mod 10 ^ Z.of_nat k.
Proof.
  revert n acc. induction k as [|k IH]; intros n acc.
  - simpl. rewrite Z.mod_1_r. lia.
  - cbn [Numeric.frac_text]. rewrite digits_val_app, IH. cbn [Numeric.digits_val].
    rewrite digit_char_value by (pose proof (Z.mod_pos_bound n 10); lia).
    rewrite Nat2Z.inj_succ, Z.pow_succ_r by lia.
    rewrite (Z.rem_mul_r n 10 (10 ^ Z.of_nat k)) by lia. ring.
Qed.

Lemma digits_val_uint_acc (u : Decimal.uint) (acc : positive) :
  Numeric.digits_val (Z.pos acc) (NilEmpty.string_of_uint u) = Z.pos (Pos.of_uint_acc u acc).
Proof.
  revert acc. induction u; intros acc; cbn [NilEmpty.string_of_uint Pos.of_uint_acc];
    [reflexivity | ..]; cbn [Numeric.digits_val]; rewrite <- IHu; f_equal;
    match goal with
    | |- context [N_of_ascii ?c] =>
        let v := eval vm_compute in (N_of_ascii c) in
        change (N_of_ascii c) with v
    end; lia.
Qed.

Lemma digits_val_uint (u : Decimal.uint) :
  Numeric.digits_val 0 (NilEmpty.string_of_uint u) = Z.of_N (Pos.of_uint u).
Proof.
  induction u; cbn [NilEmpty.string_of_uint Pos.of_uint]; [reflexivity | ..];
    cbn [Numeric.digits_val];
    match goal with
    | |- context [N_of_ascii ?c] =>
        let v := eval vm_compute in (N_of_ascii c) in
        change (N_of_ascii c) with v
    end;
    first [exact IHu | apply (digits_val_uint_acc u)].
Qed.

Lemma digits_val_int_text n : 0 <= n -> Numeric.digits_val 0 (Numeric.int_text n) = n.
Proof.
  intros H. unfold Numeric.int_text, NilZero.string_of_uint.
  pose proof (DecimalN.Unsigned.of_to (Z.to_N n)) as E. unfold N.of_uint in E.
  destruct (N.to_uint (Z.to_N n)) eqn:U;
    try (rewrite digits_val_uint, E; lia).
  simpl in E. simpl. lia.
Qed.

Lemma span_digits_all d :
  all_chars is_digit d = true -> Numeric.span_digits d = (d, "").
Proof.
  induction d as [|c d IH]; simpl; [reflexivity|].
  intros H. apply andb_true_iff in H. destruct H as [Hc Hd].
  rewrite Hc, (IH Hd). reflexivity.
Qed.

Lemma span_digits_stop d c rest :
  all_chars is_digit d = true -> is_digit c = false ->
  Numeric.span_digits (d ++ String c rest) = (d, String c rest).
Proof.
  intros Hd Hc. induction d as [|x d IH]; simpl.
  - rewrite Hc. reflexivity.
  - simpl in Hd. apply andb_true_iff in Hd. destruct Hd as [Hx Hd].
    rewrite Hx, (IH Hd). reflexivity.
Qed.

(** The text of a value that is not negative reads back as that value. *)
Lemma parse_show (a : Numeric.numeric) :
  0 <= Numeric.unscaled a -> Numeric.parse (Numeric.show a) = Some a.
Proof.
  destruct a as [m s]. cbn [Numeric.unscaled]. intros H.
  unfold Numeric.show. cbn [Numeric.unscaled Numeric.scale].
  destruct (m <? 0) eqn:N; [apply Z.ltb_lt in N; lia|].
  rewrite Z.abs_eq by exact H. cbn [append].
  pose proof (pow10_pos s) as P.
  assert (Q : 0 <= m / Numeric.pow10 s) by (apply Z.div_pos; lia).
  pose proof (Numeric.int_text_digits (m / Numeric.pow10 s)) as D.
  apply digit_string_inv in D. destruct D as [Dn Da].
  unfold Numeric.parse. destruct s as [|k].
  - replace (Numeric.int_text (m / Numeric.pow10 0) ++ "")
      with (Numeric.int_text (m / Numeric.pow10 0))
      by (clear; induction (Numeric.int_text _); simpl; congruence).
    rewrite (span_digits_all _ Da), Dn. cbn [negb].
    rewrite digits_val_int_text by exact Q.
    unfold Numeric.pow10. simpl. rewrite Z.div_1_r. reflexivity.
  - change ("." ++ Numeric.frac_text (S k) (m mod Numeric.pow10 (S k)))
      with (String "." (Numeric.frac_text (S k) (m mod Numeric.pow10 (S k)))).
    rewrite (span_digits_stop _ _ _ Da) by reflexivity.
    rewrite Dn. cbn [negb].
    assert (F : Numeric.digit_string
                  (Numeric.frac_text (S k) (m mod Numeric.pow10 (S k))) = true).
    { unfold Numeric.digit_string. rewrite Numeric.frac_text_digits, andb_true_r.
      pose proof (Numeric.frac_text_length (S k) (m mod Numeric.pow10 (S k))) as L.
      destruct (Numeric.frac_text (S k) _); [discriminate L | reflexivity]. }
    rewrite F. cbn [negb]. rewrite Ascii.eqb_refl.
    rewrite Numeric.frac_text_length, digits_val_frac_text.
    rewrite digits_val_int_text by exact Q.
    f_equal. f_equal. fold (Numeric.pow10 (S k)).
    rewrite Z.mod_mod by lia.
    pose proof (Z.div_mod m (Numeric.pow10 (S k))). lia.
Qed.

(** ** Strictly sorted lists *)

Section StrictlySorted.

Variable A : Type.
Variable lt : A -> A -> Prop.
Hypothesis lt_irrefl : forall a, ~ lt a a.
Hypothesis lt_trans : forall a b c, lt a b -> lt b c -> lt a c.

Lemma sorted_head_least a l x :
  StronglySorted lt (a :: l) -> In x l -> lt a x.
Proof.
  intros S I. inversion S as [|? ? _ F]; subst.
  rewrite Forall_forall in F. exact (F x I).
Qed.

(** Two strictly sorted lists with the same elements are equal. *)
Lemma sorted_unique l1 l2 :
  StronglySorted lt l1 -> StronglySorted lt l2 ->
  (forall x, In x l1 <-> In x l2) -> l1 = l2.
Proof.
  revert l2. induction l1 as [|a l1 IH]; intros l2 S1 S2 E.
  - destruct l2 as [|b l2]; [reflexivity|].
    exfalso. apply (proj2 (E b)). left. reflexivity.
  - destruct l2 as [|b l2].
    + exfalso. apply (proj1 (E a)). left. reflexivity.
    + assert (Eab : a = b).
      { destruct (proj1 (E a) (or_introl eq_refl)) as [Hb | Hb]; [auto|].
        destruct (proj2 (E b) (or_introl eq_refl)) as [Ha | Ha]; [auto|].
        exfalso. apply (lt_irrefl a).
        apply (lt_trans a b a).
        - exact (sorted_head_least a l1 b S1 Ha).
        - exact (sorted_head_least b l2 a S2 Hb). }
      subst b. f_equal. apply IH.
      * inversion S1; assumption.
      * inversion S2; assumption.
      * intros x. split; intros I.
        -- destruct (proj1 (E x) (or_intror I)) as [Hx | Hx]; [|exact Hx].
           subst x. exfalso. apply (lt_irrefl a).
           exact (sorted_head_least a l1 a S1 I).
        -- destruct (proj2 (E x) (or_intror I)) as [Hx | Hx]; [|exact Hx].
           subst x. exfalso. apply (lt_irrefl a).
           exact (sorted_head_least a l2 a S2 I).
Qed.

Lemma sorted_before_pivot front o back x :
  StronglySorted lt (front ++ o :: back) -> In x front -> lt x o.
Proof.
  induction front as [|a front IH]; simpl; intros S I; [contradiction|].
  destruct I as [I | I].
  - subst a. apply (sorted_head_least x (front ++ o :: back)); [exact S|].
    apply in_or_app. right. left. reflexivity.
  - apply IH; [inversion S; assumption | exact I].
Qed.

(** In a strictly sorted list the elements behind one of its elements
    are those greater than it. *)
Lemma sorted_after_pivot front o back x :
  StronglySorted lt (front ++ o :: back) ->
  (In x back <-> In x (front ++ o :: back) /\ lt o x).
Proof.
  intros S. split.
  - intros I. split.
    + apply in_or_app. right. right. exact I.
    + apply (sorted_head_least o back); [|exact I].
      clear I. induction front as [|a front IH]; simpl in S; [exact S|].
      apply IH. inversion S; assumption.
  - intros [I L]. apply in_app_or in I. destruct I as [I | [I | I]].
    + exfalso. apply (lt_irrefl o).
      apply (lt_trans o x o L). exact (sorted_before_pivot front o back x S I).
    + subst x. exfalso. exact (lt_irrefl o L).
    + exact I.
Qed.

End StrictlySorted.

(** ** Consecutive pages *)

Definition passes (query : Query.t) (o : Order.t) : bool :=
  forallb (fun c => holds c o) (filters query).

(** All the orders of the store that pass the filters of a request, in
    the order of its sort. *)
Definition listing (store : list Order.t) (query : Query.t) : list Order.t :=
  sort (sorting query) (filter (passes query) store).

Definition page_at (store : list Order.t) (query : Query.t) (offset : nat) : list Row.t :=
  map select
    (firstn (Z.to_nat (clamped_limit query)) (skipn offset (listing store query))).

Definition with_continuation (c : option string) (q : Query.t) : Query.t :=
  Query.mk (Query.ids q) (Query.token q) (Query.maker q) (Query.contracts q)
    (Query.status q) (Query.includePrivate q) (Query.includeMetadata q)
    (Query.includeRawData q) (Query.sortBy q) c (Query.limit q).

Lemma strictly_before_irrefl ob a : ~ strictly_before ob a a.
Proof.
  unfold strictly_before.
  rewrite (cmp_refl Order.t (compare_orders ob) (compare_orders_total ob)).
  discriminate.
Qed.

Lemma strictly_before_trans ob a b c :
  strictly_before ob a b -> strictly_before ob b c -> strictly_before ob a c.
Proof.
  unfold strictly_before. apply (cmp_trans (compare_orders_total ob)).
Qed.

Lemma after_cursor_iff (d : direction) (c1 c2 : column) (x1 x2 y1 y2 : value) :
  op_holds (scan_op d) (compare_tuple [x1; x2] [y1; y2]) = true <->
  compare_keys [(c1, d); (c2, d)] [y1; y2] [x1; x2] = Lt.
Proof.
  simpl.
  rewrite (compare_value_antisym y1 x1), (compare_value_antisym y2 x2).
  destruct d; simpl;
    destruct (compare_value x1 y1), (compare_value x2 y2); simpl;
    split; intros H; try discriminate; reflexivity.
Qed.

(** The column a query sorts by, before the id. *)
Definition sort_column (query : Query.t) : column :=
  match Query.sortBy query with
  | price_sort => col_price
  | createdAt_sort => col_created_at
  end.

(** The store reads the text of a sort value back as that value. *)
Definition reads_back (query : Query.t) (v : Numeric.numeric) : Prop :=
  exists w, read_param (sort_column query) (Numeric.show v) = Some (VNum w) /\
            Numeric.compare w v = Eq.

Lemma compare_keys_cursor (d : direction) (c1 c2 : column) (w v : Numeric.numeric)
  (i : value) (xs : list value) :
  Numeric.compare w v = Eq ->
  compare_keys [(c1, d); (c2, d)] (VNum w :: i :: nil) xs =
  compare_keys [(c1, d); (c2, d)] (VNum v :: i :: nil) xs.
Proof.
  intros E. destruct xs as [|x xs]; [reflexivity|]. cbn [compare_keys].
  rewrite (cmp_compat compare_value_total (VNum w) (VNum v) x E). reflexivity.
Qed.

(** The pagination clause built from the sort value and id of an order
    holds on the orders that come strictly after it, when the store
    reads the text of that value back. *)
Lemma row_cmp_after query (last o : Order.t) :
  reads_back query (sort_value query (select last)) ->
  holds (RowCmp (map fst (sorting query))
           (match Query.sortBy query with price_sort => GT | createdAt_sort => LT end)
           [Numeric.show (sort_value query (select last)); Order.id last]) o = true <->
  strictly_before (sorting query) last o.
Proof.
  intros (w & R & E).
  unfold strictly_before, compare_orders, sort_key, sorting, sort_value, sort_column in *.
  destruct (Query.sortBy query); cbn [map fst holds read_params];
    cbn [select Row.price Row.created_at] in *;
    rewrite R; cbn [read_param column_value].
  - rewrite (after_cursor_iff ASC col_price col_id).
    rewrite (compare_keys_cursor ASC col_price col_id w _ _ _ E). reflexivity.
  - rewrite (after_cursor_iff DESC col_created_at col_id).
    rewrite (compare_keys_cursor DESC col_created_at col_id w _ _ _ E). reflexivity.
Qed.

Lemma map_select_last (l : list Order.t) front (r : Row.t) :
  map select l = (front ++ [r])%list ->
  exists l' o, l = (l' ++ [o])%list /\ select o = r.
Proof.
  intros E. destruct l as [|x l0] using rev_ind.
  - destruct front; discriminate.
  - clear IHl0. rewrite map_app in E. simpl in E.
    apply app_inj_tail in E. destruct E as [_ E].
    exists l0, x. auto.
Qed.

Lemma listing_strict store query :
  NoDup (map Order.id store) ->
  StronglySorted (strictly_before (sorting query)) (listing store query).
Proof.
  intros N. unfold listing. apply strongly_sorted_strict.
  - apply sort_ids_nodup, filter_ids_nodup, N.
  - apply sort_strongly_sorted.
Qed.

Lemma split_emitted (a : Numeric.numeric) (id : string) :
  0 <= Numeric.unscaled a -> hash_id id ->
  splitContinuation (buildContinuation (Numeric.show a ++ "_" ++ id)) continuation_shape
    = Ok [Numeric.show a; id].
Proof.
  intros Ha Hid. destruct (token_text_shape a id Ha Hid) as [L S].
  apply Regex.test_complete in L.
  unfold splitContinuation, buildContinuation.
  rewrite Base64.decode_encode, L, S. reflexivity.
Qed.

Lemma row_cmp_well_typed query (k : Numeric.numeric) (id : string) :
  reads_back query k ->
  well_typed (RowCmp (map fst (sorting query))
                (match Query.sortBy query with price_sort => GT | createdAt_sort => LT end)
                [Numeric.show k; id]) = true.
Proof.
  intros (w & R & _). unfold sorting, sort_column in *.
  destruct (Query.sortBy query); cbn [map fst well_typed read_params];
    rewrite R; reflexivity.
Qed.

Lemma next_continuation_inv query rows token :
  next_continuation query rows = Ok (Some token) ->
  Z.of_nat (length rows) = clamped_limit query /\
  exists r, last_row rows = Some r /\
    token = buildContinuation (Numeric.show (sort_value query r) ++ "_" ++ Row.id r).
Proof.
  unfold next_continuation.
  destruct (Z.of_nat (length rows) =? clamped_limit query) eqn:E; [|discriminate].
  apply Z.eqb_eq in E.
  destruct (last_row rows) as [r|]; [|discriminate].
  intros H. split; [exact E|]. exists r. split; [reflexivity|].
  inversion H. reflexivity.
Qed.

(** The orders that the request for the next page selects, sorted, are
    the part of the listing behind the order of the cursor. *)
Lemma behind_cursor store query (front back : list Order.t) (o : Order.t) :
  NoDup (map Order.id store) ->
  listing store query = (front ++ o :: back)%list ->
  reads_back query (sort_value query (select o)) ->
  sort (sorting query)
    (filter (fun x =>
               forallb (fun c => holds c x)
                 (filters query ++
                  [RowCmp (map fst (sorting query))
                     (match Query.sortBy query with price_sort => GT | createdAt_sort => LT end)
                     [Numeric.show (sort_value query (select o)); Order.id o]]))
       store) = back.
Proof.
  intros N E K.
  pose proof (listing_strict store query N) as S. rewrite E in S.
  apply (sorted_unique Order.t (strictly_before (sorting query))
           (strictly_before_irrefl _) (strictly_before_trans _)).
  - apply strongly_sorted_strict; [|apply sort_strongly_sorted].
    apply sort_ids_nodup, filter_ids_nodup, N.
  - apply strongly_sorted_app_r in S. inversion S; assumption.
  - intros x.
    rewrite (sorted_after_pivot Order.t (strictly_before (sorting query))
               (strictly_before_irrefl _) (strictly_before_trans _)
               front o back x S).
    rewrite <- E. unfold listing. rewrite !sort_In, !filter_In.
    rewrite forallb_app. cbn [forallb]. rewrite andb_true_r, andb_true_iff.
    fold (passes query x).
    rewrite (row_cmp_after query o x K). tauto.
Qed.

(** X10: When a page is full, the request that presents its token gets the
    rows that follow it in the listing: no row is skipped and none comes
    twice.  The ids of the store are distinct, the last row of the page
    has a 32 byte hash id and a sort value that is not negative, and the
    store reads the text of that value back as the same value (as a
    numeric under the price sort, through to_timestamp under the
    createdAt sort); neither ids nor contracts is an empty array. *)
Theorem next_page_follows (store : list Order.t) (query : Query.t)
  (offset : nat) (token : string) (r : Row.t)
  (N : NoDup (map Order.id store))
  (T : next_continuation query (page_at store query offset) = Ok (Some token))
  (L : last_row (page_at store query offset) = Some r)
  (Hid : hash_id (Row.id r))
  (Hk : 0 <= Numeric.unscaled (sort_value query r))
  (Hr : reads_back query (sort_value query r))
  (He : empty_list_filter query = false) :
  rawResult store (with_continuation (Some token) query)
    = Ok (page_at store query (offset + length (page_at store query offset))).
Proof.
  apply next_continuation_inv in T. destruct T as (Full & r' & L' & ->).
  rewrite L in L'. inversion L'; subst r'; clear L'.
  pose proof L as Lr. apply last_row_inv in Lr. destruct Lr as (rows_front & Ep).
  unfold page_at in Ep. apply map_select_last in Ep.
  destruct Ep as (l' & o & El & <-).
  set (n := Z.to_nat (clamped_limit query)) in *.
  assert (Ln : length (page_at store query offset) = n).
  { unfold n. lia. }
  assert (Eall : listing store query =
                 ((firstn offset (listing store query) ++ l') ++
                  o :: skipn (offset + n) (listing store query))%list).
  { rewrite <- (firstn_skipn offset (listing store query)) at 1.
    rewrite <- (firstn_skipn n (skipn offset (listing store query))) at 1.
    fold n in El. rewrite El, skipn_skipn, <- !app_assoc.
    rewrite (Nat.add_comm n offset). reflexivity. }
  cbn [select Row.id] in Hid.
  unfold rawResult, assemble, pagination.
  cbn [with_continuation Query.continuation Query.sortBy].
  cbn [select Row.id]. rewrite (split_emitted _ _ Hk Hid). cbn [bind firstn].
  replace (match Query.sortBy query with
           | price_sort =>
               Ok [RowCmp [col_price; col_id] GT
                     [Numeric.show (sort_value query (select o)); Order.id o]]
           | createdAt_sort =>
               Ok [RowCmp [col_created_at; col_id] LT
                     [Numeric.show (sort_value query (select o)); Order.id o]]
           end)
    with (Ok [RowCmp (map fst (sorting query))
                (match Query.sortBy query with price_sort => GT | createdAt_sort => LT end)
                [Numeric.show (sort_value query (select o)); Order.id o]])
    by (unfold sorting; destruct (Query.sortBy query); reflexivity).
  cbn [bind]. unfold manyOrNone. cbn [where_ limit_ order_by].
  change (filters (with_continuation ?c query)) with (filters query).
  change (sorting (with_continuation ?c query)) with (sorting query).
  change (clamped_limit (with_continuation ?c query)) with (clamped_limit query).
  rewrite forallb_app, filters_well_typed, He. cbn [forallb negb].
  rewrite (row_cmp_well_typed query _ _ Hr).
  assert (P : (0 <=? clamped_limit query) = true) by (apply Z.leb_le; lia).
  rewrite P. cbn [andb].
  unfold matching. cbn [where_].
  rewrite (behind_cursor store query _ _ o N Eall Hr).
  rewrite Ln. unfold page_at. reflexivity.
Qed.

Lemma two_orders_ids : NoDup (map Order.id two_orders).
Proof.
  constructor.
  - intros [E | []]. discriminate E.
  - constructor; [intros [] | constructor].
Qed.

(** ** Acceptance *)


(** ** Failures of the handler *)


(** ** Parameters that do not change the response *)

Definition with_limit (l : Z) (q : Query.t) : Query.t :=
  Query.mk (Query.ids q) (Query.token q) (Query.maker q) (Query.contracts q)
    (Query.status q) (Query.includePrivate q) (Query.includeMetadata q)
    (Query.includeRawData q) (Query.sortBy q) (Query.continuation q) l.

Definition with_status (s : option StatusFilter) (q : Query.t) : Query.t :=
  Query.mk (Query.ids q) (Query.token q) (Query.maker q) (Query.contracts q)
    s (Query.includePrivate q) (Query.includeMetadata q)
    (Query.includeRawData q) (Query.sortBy q) (Query.continuation q) (Query.limit q).

(** X14: A limit above 100 gives the response of the limit 100: the same
    rows and the same continuation token. *)
Theorem limit_above_100 (store : list Order.t) (query : Query.t)
  (H : 100 <= Query.limit query) :
  handler store query = handler store (with_limit 100 query).
Proof.
  assert (C : clamped_limit query = clamped_limit (with_limit 100 query)).
  { unfold clamped_limit. cbn [with_limit Query.limit]. lia. }
  unfold handler, rawResult, assemble, next_continuation.
  change (pagination (with_limit 100 query)) with (pagination query).
  change (filters (with_limit 100 query)) with (filters query).
  change (sorting (with_limit 100 query)) with (sorting query).
  rewrite <- C.
  destruct (pagination query) as [page|e]; cbn [bind]; [|reflexivity].
  destruct (manyOrNone store _) as [rows|e]; cbn [bind]; reflexivity.
Qed.

(** X15: The status parameter changes the response only as inactive together
    with a maker: otherwise the response is that of the same request
    without status. *)
Theorem status_without_effect (store : list Order.t) (query : Query.t)
  (H : ~ (Query.maker query <> None /\ Query.status query = Some inactive)) :
  handler store query = handler store (with_status None query).
Proof.
  assert (F : filters (with_status None query) = filters query).
  { unfold filters, orderStatusFilter.
    cbn [with_status Query.ids Query.token Query.contracts Query.maker
         Query.includePrivate Query.status].
    destruct (Query.maker query) as [m|]; [|reflexivity].
    destruct (Query.status query) as [[|]|]; try reflexivity.
    exfalso. apply H. split; [discriminate | reflexivity]. }
  unfold handler, rawResult, assemble, next_continuation.
  change (pagination (with_status None query)) with (pagination query).
  change (sorting (with_status None query)) with (sorting query).
  change (clamped_limit (with_status None query)) with (clamped_limit query).
  rewrite F.
  destruct (pagination query) as [page|e]; cbn [bind]; [|reflexivity].
  destruct (manyOrNone store _) as [rows|e]; cbn [bind]; reflexivity.
Qed.

Definition active_of_maker : Query.t :=
  Query.mk None None (Some sample_maker) None (Some active) false false false
    createdAt_sort None 10.

Definition with_ids (ids : option one_or_many) (q : Query.t) : Query.t :=
  Query.mk ids (Query.token q) (Query.maker q) (Query.contracts q)
    (Query.status q) (Query.includePrivate q) (Query.includeMetadata q)
    (Query.includeRawData q) (Query.sortBy q) (Query.continuation q) (Query.limit q).

Definition with_contracts (contracts : option one_or_many) (q : Query.t) : Query.t :=
  Query.mk (Query.ids q) (Query.token q) (Query.maker q) contracts
    (Query.status q) (Query.includePrivate q) (Query.includeMetadata q)
    (Query.includeRawData q) (Query.sortBy q) (Query.continuation q) (Query.limit q).

Lemma manyOrNone_ext store (w1 w2 : list condition) ob l :
  forallb well_typed w1 = forallb well_typed w2 ->
  (forall o, forallb (fun c => holds c o) w1 = forallb (fun c => holds c o) w2) ->
  manyOrNone store (mk_statement w1 ob l) = manyOrNone store (mk_statement w2 ob l).
Proof.
  intros W E. unfold manyOrNone, matching. cbn [where_ order_by limit_].
  rewrite W. rewrite (filter_ext _ _ E). reflexivity.
Qed.

(** X16: A single id gives the response of the array of that one id, and a
    single contract the response of the array of that one contract. *)
Theorem single_value_as_array (store : list Order.t) (query : Query.t) (s : string) :
  handler store (with_ids (Some (One s)) query)
    = handler store (with_ids (Some (Many [s])) query) /\
  handler store (with_contracts (Some (One s)) query)
    = handler store (with_contracts (Some (Many [s])) query).
Proof.
  split; [|reflexivity].
  unfold handler, rawResult, assemble, next_continuation.
  change (pagination (with_ids (Some (Many [s])) query))
    with (pagination (with_ids (Some (One s)) query)).
  change (clamped_limit (with_ids (Some (Many [s])) query))
    with (clamped_limit (with_ids (Some (One s)) query)).
  change (sorting (with_ids (Some (Many [s])) query))
    with (sorting (with_ids (Some (One s)) query)).
  destruct (pagination (with_ids (Some (One s)) query)) as [page|e]; cbn [bind];
    [|reflexivity].
  rewrite (manyOrNone_ext store
             (filters (with_ids (Some (One s)) query) ++ page)
             (filters (with_ids (Some (Many [s])) query) ++ page)).
  - destruct (manyOrNone store _) as [rows|e]; cbn [bind]; reflexivity.
  - rewrite !forallb_app, !filters_well_typed. reflexivity.
  - intros o. rewrite !forallb_app. f_equal.
    unfold filters. cbn [with_ids Query.ids when_present app forallb holds existsb].
    rewrite orb_false_r. reflexivity.
Qed.

End Endpoint.

(** * Runs on concrete stores *)

(** ** Sample patterns *)

(** [[a-fA-F0-9]] *)
Definition is_hex_any (c : ascii) : bool :=
  let n := N_of_ascii c in
  (((48 <=? n) && (n <=? 57)) || ((97 <=? n) && (n <=? 102)) ||
   ((65 <=? n) && (n <=? 70)))%N.

(** [[A-Za-z0-9+/]] *)
Definition is_base64_char (c : ascii) : bool :=
  match Base64.value_of c with
  | Some _ => true
  | None => false
  end.

Definition address_shape : Regex.re :=
  Regex.Seq (Regex.lit "0x") (Regex.rep 40 (Regex.Class is_hex_any)).

Definition token_shape : Regex.re :=
  Regex.Seq address_shape
    (Regex.Seq (Regex.lit ":") (Regex.plus (Regex.Class is_digit))).

Definition base64_shape : Regex.re :=
  Regex.Seq (Regex.Star (Regex.rep 4 (Regex.Class is_base64_char)))
    (Regex.opt
       (Regex.Alt
          (Regex.Seq (Regex.rep 2 (Regex.Class is_base64_char)) (Regex.lit "=="))
          (Regex.Seq (Regex.rep 3 (Regex.Class is_base64_char)) (Regex.lit "=")))).

(** A sample of the patterns, which the schema takes from [regex] and
    which are parameters here.  An address is [0x] and 40 hexadecimal
    digits, a token an address, a colon and a decimal token id, as the
    examples in the descriptions of the schema show; a continuation is
    base64 text. *)
Definition sample_patterns : patterns :=
  mk_patterns (Regex.test token_shape) (Regex.test address_shape)
    (Regex.test base64_shape).

(** ** A store that reads as PostgreSQL does *)

(** The quotient of [n] by [d], [d] positive, rounded to the nearest
    integer, ties to even. *)
Definition round_half_even (n d : Z) : Z :=
  let q := n / d in
  match 2 * (n mod d) ?= d with
  | Lt => q
  | Gt => q + 1
  | Eq => if Z.even q then q else q + 1
  end.

(** The double nearest to [n / d], [n] not negative and [d] positive, as
    a fraction: a mantissa of 53 bits and a power of two. *)
Definition nearest_double (n d : Z) : Z * Z :=
  if n =? 0 then (0, 1)
  else
    let scaled (e : Z) : Z * Z :=
      if 0 <=? e then (n, d * 2 ^ e) else (n * 2 ^ (- e), d) in
    let e0 := Z.log2 n - Z.log2 d - 52 in
    let e := if fst (scaled e0) <? 2 ^ 52 * snd (scaled e0) then e0 - 1 else e0 in
    let m := round_half_even (fst (scaled e)) (snd (scaled e)) in
    if 0 <=? e then (m * 2 ^ e, 1) else (m, 2 ^ (- e)).

Definition double (q : Z * Z) : Z * Z :=
  if fst q <? 0
  then let r := nearest_double (- fst q) (snd q) in (- fst r, snd r)
  else nearest_double (fst q) (snd q).

Fixpoint radix_val (radix acc : Z) (s : string) : option Z :=
  match s with
  | EmptyString => Some acc
  | String c s' =>
      let n := Z.of_N (N_of_ascii c) in
      let d := if is_digit c then n - 48
               else if (97 <=? n) && (n <=? 102) then n - 87
               else if (65 <=? n) && (n <=? 70) then n - 55
               else radix in
      if d <? radix then radix_val radix (radix * acc + d) s' else None
  end.

(** An integer written with a radix prefix: [0x], [0o] or [0b]. *)
Definition radix_integer (hex_only : bool) (s : string) : option Z :=
  match s with
  | String "0" (String p (String c s')) =>
      if Ascii.eqb p "x" || Ascii.eqb p "X" then radix_val 16 0 (String c s')
      else if hex_only then None
      else if Ascii.eqb p "o" || Ascii.eqb p "O" then radix_val 8 0 (String c s')
      else if Ascii.eqb p "b" || Ascii.eqb p "B" then radix_val 2 0 (String c s')
      else None
  | _ => None
  end.

(** Digits, [e] or [E], digits: a whole number times a power of ten. *)
Definition exponent_form (s : string) : option Z :=
  match (if existsb (Ascii.eqb "e") (list_ascii_of_string s)
         then split_on "e" s else split_on "E" s) with
  | [m; x] =>
      if nonempty m && nonempty x
      then match radix_val 10 0 m, radix_val 10 0 x with
           | Some a, Some b => Some (a * 10 ^ b)
           | _, _ => None
           end
      else None
  | _ => None
  end.

Definition first_of {A : Type} (a b : option A) : option A :=
  match a with
  | Some _ => a
  | None => b
  end.

(** The input of a numeric: a decimal, a whole number with an exponent,
    or an integer with a radix prefix. *)
Definition pg_numeric (text : string) : option Numeric.numeric :=
  first_of (Numeric.parse text)
    (option_map Numeric.of_Z
       (first_of (exponent_form text) (radix_integer false text))).

(** The input of a double, before rounding: a decimal, a whole number
    with an exponent, or a hexadecimal integer. *)
Definition pg_float_text (text : string) : option (Z * Z) :=
  first_of
    (option_map (fun v => (Numeric.unscaled v, Numeric.pow10 (Numeric.scale v)))
       (Numeric.parse text))
    (option_map (fun z => (z, 1))
       (first_of (exponent_form text) (radix_integer true text))).

(** [to_timestamp] of a text: the text is read as a double (seconds
    since 1970), checked against the range of timestamps, moved to the
    epoch of 2000, scaled to microseconds and rounded to an integer, each
    step in double precision.  The result is given in seconds since 1970
    with six fraction digits. *)
Definition pg_to_timestamp (text : string) : option Numeric.numeric :=
  match pg_float_text text with
  | Some (n, d) =>
      let s := double (n, d) in
      if (fst s <? -210866803200 * snd s) || (9224318016000 * snd s <=? fst s)
      then None
      else
        let s2 := double (fst s - 946684800 * snd s, snd s) in
        let p := double (fst s2 * 1000000, snd s2) in
        Some (Numeric.mk (round_half_even (fst p) (snd p) + 946684800000000) 6)
  | None => None
  end.

Definition pg : reading := mk_reading pg_numeric pg_to_timestamp.

(** Under the price sort this store reads the text of every value that
    is not negative back as that value. *)
Lemma pg_reads_back_price (query : Query.t) (v : Numeric.numeric) :
  Query.sortBy query = price_sort ->
  0 <= Numeric.unscaled v ->
  reads_back pg query v.
Proof.
  intros S N. exists v. split.
  - unfold sort_column. rewrite S. cbn [read_param read_numeric pg].
    unfold pg_numeric. rewrite (parse_show v N). reflexivity.
  - unfold Numeric.compare. apply Z.compare_refl.
Qed.

(** Two active listings priced 1 and 2, sorted by price with a page of
    two: both are returned in ascending order and the page, being full,
    carries a token for (2, id of the second). *)
Example full_page_of_two :
  rawResult pg two_orders (by_token price_sort None 2)
    = Ok [select (sell_order id_a 1 10); select (sell_order id_b 2 20)] /\
  next_continuation (by_token price_sort None 2)
    [select (sell_order id_a 1 10); select (sell_order id_b 2 20)]
    = Ok (Some (buildContinuation ("2_" ++ id_b))).
Proof. split; vm_compute; reflexivity. Qed.








Lemma page_limit_clamped_witness :
  (length (match rawResult pg many_orders (by_token createdAt_sort None 1000) with
           | Ok rows => rows
           | Err _ => []
           end) <= 100)%nat.
Proof.
  refine (proj2 (proj2 (page_limit_clamped pg many_orders
                          (by_token createdAt_sort None 1000) _ _))).
  vm_compute. reflexivity.
Defined.

Lemma continuation_iff_full_page_witness :
  exists resp,
    handler pg two_orders (by_token price_sort None 1) = Ok resp /\
    orders resp = map project [select (sell_order id_a 1 10)] /\
    continuation resp = Some first_page_token.
Proof.
  destruct (continuation_iff_full_page pg two_orders
              (by_token price_sort None 1) [select (sell_order id_a 1 10)]
              ltac:(vm_compute; reflexivity) ltac:(vm_compute; discriminate))
    as (resp & E & O & _ & _ & F).
  exists resp. split; [exact E|]. split; [exact O|].
  destruct (F ltac:(rewrite O; reflexivity)) as (front & last & R & C).
  destruct (app_inj_tail [] front (select (sell_order id_a 1 10)) last R)
    as [_ L].
  rewrite C, <- L. vm_compute. reflexivity.
Defined.

Lemma keyset_predicate_matches_order_witness :
  exists k i cursor,
    read_numeric pg k = Some cursor /\
    forall r, In r (map select [sell_order id_b 2 20]) ->
      compare_tuple [VNum (Row.price r); VText (Row.id r)]
                    [VNum cursor; VText i] = Gt.
Proof.
  destruct (keyset_predicate_matches_order pg two_orders
              (by_token price_sort (Some first_page_token) 1)
              first_page_token (map select [sell_order id_b 2 20])
              eq_refl ltac:(vm_compute; reflexivity))
    as (k & i & cursor & _ & P & _ & R).
  exists k, i, cursor. split; [exact P|].
  intros r I. exact (proj1 (R r I)).
Defined.

(** C6, as stated, fails: the token of a page sorted by price, which
    holds the price 100, is accepted by a request sorted by createdAt
    and read as the time 100. *)
Lemma price_token_accepted_under_createdAt :
  continuation_of (handler pg priced_orders (by_token price_sort None 1))
    = Some price_page_token /\
  pagination (by_token createdAt_sort (Some price_page_token) 1)
    = Ok [RowCmp [col_created_at; col_id] LT ["100"; id_a]] /\
  rawResult pg priced_orders (by_token createdAt_sort (Some price_page_token) 1)
    = Ok [select (sell_order id_a 100 10)] /\
  handler pg priced_orders (by_token createdAt_sort (Some price_page_token) 1)
    <> Err InvalidContinuation.
Proof.
  split; [vm_compute; reflexivity|].
  split; [vm_compute; reflexivity|].
  split; [vm_compute; reflexivity|].
  vm_compute. discriminate.
Qed.

Lemma continuation_shape_checked_witness :
  exists text,
    Base64.decode price_page_token = Some text /\
    Regex.Lang continuation_shape text.
Proof.
  destruct (proj1 (proj2 (continuation_shape_checked pg
                            (by_token createdAt_sort (Some price_page_token) 1)
                            price_page_token eq_refl))
              [RowCmp [col_created_at; col_id] LT ["100"; id_a]]
              ltac:(vm_compute; reflexivity))
    as (text & D & L & _).
  exists text. split; [exact D | exact L].
Defined.

(** C10, as stated, fails: for an order whose id is not a 32 byte hash
    the handler emits a token that it rejects on the next request. *)
Lemma emitted_token_rejected :
  continuation_of (handler pg [plain_id_order] (by_token price_sort None 1))
    = Some "MV9vcmRlci0x" /\
  Base64.decode "MV9vcmRlci0x" = Some "1_order-1" /\
  Regex.test continuation_shape "1_order-1" = false /\
  handler pg [plain_id_order] (by_token price_sort (Some "MV9vcmRlci0x") 1)
    = Err InvalidContinuation.
Proof.
  repeat split; vm_compute; reflexivity.
Qed.

Lemma emitted_token_accepted_witness :
  splitContinuation first_page_token continuation_shape = Ok ["1"; id_a].
Proof.
  refine (proj1 (proj2 (emitted_token_accepted (by_token price_sort None 1)
                          [select (sell_order id_a 1 10)]
                          (select (sell_order id_a 1 10))
                          first_page_token _ _ _ _))).
  - vm_compute. reflexivity.
  - reflexivity.
  - exists "00000000000000000000000000000000000000000000000000000000000000aa".
    repeat split.
  - vm_compute. discriminate.
Defined.

Lemma page_in_sort_order_witness :
  StronglySorted (fun a b => row_order (by_token price_sort None 2) a b <> Gt)
    [select (sell_order id_a 1 10); select (sell_order id_b 2 20)].
Proof.
  refine (proj1 (page_in_sort_order pg two_orders (by_token price_sort None 2) _ _)).
  vm_compute. reflexivity.
Defined.

Lemma page_length_witness :
  exists stmt,
    assemble (by_token price_sort None 1) = Ok stmt /\
    length [select (sell_order id_a 1 10)] =
    Nat.min (Z.to_nat (Z.min 1 100)) (length (matching pg stmt two_orders)).
Proof.
  refine (page_length pg two_orders (by_token price_sort None 1)
            [select (sell_order id_a 1 10)] _).
  vm_compute. reflexivity.
Defined.

Lemma no_continuation_complete_witness :
  exists stmt,
    assemble (by_token price_sort None 3) = Ok stmt /\
    forall o, In o two_orders ->
      (forall c, In c (where_ stmt) -> holds pg c o = true) ->
      In (project (select o))
         (map project (map select [sell_order id_a 1 10; sell_order id_b 2 20])).
Proof.
  refine (no_continuation_complete pg two_orders (by_token price_sort None 3)
            (mk_response
               (map project (map select [sell_order id_a 1 10; sell_order id_b 2 20]))
               None) _ _).
  - vm_compute. reflexivity.
  - reflexivity.
Defined.

Lemma page_rows_pass_filters_witness :
  Row.side (select (sell_order id_a 1 10)) = "sell".
Proof.
  refine (proj1 (page_rows_pass_filters pg two_orders (by_token price_sort None 1)
                   [select (sell_order id_a 1 10)] (select (sell_order id_a 1 10)) _ _)).
  - vm_compute. reflexivity.
  - left. reflexivity.
Defined.

Lemma page_status_witness :
  exists o, In o [disabled_order] /\ select disabled_order = select o /\
    (Row.status (select disabled_order) = "inactive" \/
     (Row.status (select disabled_order) = "active" /\
      Order.fillability_status o = "fillable" /\
      Order.approval_status o <> "approved" /\
      Order.approval_status o <> "no-approval")).
Proof.
  refine (proj2 (page_status pg [disabled_order] inactive_of_maker
                   [select disabled_order] (select disabled_order) _ _) _).
  - vm_compute. reflexivity.
  - left. reflexivity.
  - split; [discriminate | reflexivity].
Defined.

Lemma listing_currency_witness :
  snd (Listing.price (project (select (sell_order id_a 1 10)))) <> Weth.
Proof.
  refine (proj1 (listing_currency pg two_orders (by_token price_sort None 1)
                   (mk_response [project (select (sell_order id_a 1 10))]
                      (Some first_page_token))
                   (project (select (sell_order id_a 1 10))) _ _)).
  - vm_compute. reflexivity.
  - left. reflexivity.
Defined.


Lemma accepted_request_anchored_witness :
  existsb is_anchor
    (filters (Query.mk None (Some sample_token) None None None false false false
                createdAt_sort None 50)) = true.
Proof.
  refine (proj1 (accepted_request_anchored sample_patterns token_only _ _)).
  vm_compute. reflexivity.
Defined.

Lemma next_page_follows_witness :
  rawResult pg two_orders
    (with_continuation (Some first_page_token) (by_token price_sort None 1))
    = Ok (page_at pg two_orders (by_token price_sort None 1)
            (0 + length (page_at pg two_orders (by_token price_sort None 1) 0))).
Proof.
  refine (next_page_follows pg two_orders (by_token price_sort None 1) 0
            first_page_token (select (sell_order id_a 1 10))
            two_orders_ids _ _ _ _ _ _).
  - vm_compute. reflexivity.
  - vm_compute. reflexivity.
  - exists "00000000000000000000000000000000000000000000000000000000000000aa".
    repeat split.
  - vm_compute. discriminate.
  - exists (Numeric.of_Z 1). split; vm_compute; reflexivity.
  - reflexivity.
Defined.


Lemma limit_above_100_witness :
  handler pg two_orders (by_token createdAt_sort None 1000)
    = handler pg two_orders (with_limit 100 (by_token createdAt_sort None 1000)).
Proof.
  refine (limit_above_100 pg two_orders (by_token createdAt_sort None 1000) _).
  vm_compute. discriminate.
Defined.

Lemma status_without_effect_witness :
  handler pg two_orders active_of_maker
    = handler pg two_orders (with_status None active_of_maker).
Proof.
  refine (status_without_effect pg two_orders active_of_maker _).
  intros [_ E]. discriminate E.
Defined.
